(** * Spot detection tutorial: a shallow embedding of the notebook's pipeline

    The notebook [spot_detection_tutorial_beginner.ipynb] defines two
    functions, [gaussian_high_pass] and [detect_spots], and a short script
    that assigns every detected spot to its nearest nucleus and colours the
    result.  Everything else is a call into scipy, scikit-image or napari.

    The functions of the notebook are translated line by line.  The library
    routines they call ([ndi.gaussian_filter], [blob_log],
    [regionprops_table], [cKDTree.query]) are parameters of the development:
    each is a [Variable] of a section, constrained by the part of its
    documented contract that a statement needs.  Reference implementations
    of these routines follow the code of the notebook, so that the
    pipeline runs on concrete data and every contract is inhabited. *)

From Stdlib Require Import ZArith QArith List Bool Lia.
From Stdlib Require Import Floats.SpecFloat.
Import ListNotations.

Set Implicit Arguments.
Close Scope Q_scope.

(** ** Python exceptions as values *)

Inductive exn : Type :=
| ValueError   (* operands of different shapes, columns of different length *)
| IndexError   (* an index outside of an axis *)
| LibraryError (* anything a library call raises on input it refuses *).

Inductive result (A : Type) : Type :=
| Ok (a : A)
| Raise (e : exn).

Arguments Ok {A} a.
Arguments Raise {A} e.

Definition bind {A B : Type} (r : result A) (k : A -> result B) : result B :=
  match r with
  | Ok a => k a
  | Raise e => Raise e
  end.

Notation "x <- e ;; k" := (bind e (fun x => k))
  (at level 61, e at next level, right associativity).

Definition returns {A : Type} (r : result A) : Prop := exists a, r = Ok a.

Fixpoint mapM {A B : Type} (f : A -> result B) (l : list A) : result (list B) :=
  match l with
  | [] => Ok []
  | a :: l' => b <- f a ;; bs <- mapM f l' ;; Ok (b :: bs)
  end.

(** ** numpy scalars and dtypes *)

(** IEEE-754 binary64, as specified by the standard library: 53 bits of
    precision, exponents below 1024; rounding is to nearest, ties to even. *)
Definition float64 : Type := spec_float.

Definition f64_add : float64 -> float64 -> float64 := SFadd 53 1024.
Definition f64_sub : float64 -> float64 -> float64 := SFsub 53 1024.
Definition f64_mul : float64 -> float64 -> float64 := SFmul 53 1024.
Definition f64_eqb : float64 -> float64 -> bool := SFeqb.
Definition f64_ltb : float64 -> float64 -> bool := SFltb.
Definition f64_of_Z (z : Z) : float64 := binary_normalize 53 1024 z 0 false.
Definition f64_zero : float64 := S754_zero false.
Definition f64_nan : float64 := S754_nan.

Definition f64_finite (x : float64) : Prop :=
  match x with
  | S754_zero _ | S754_finite _ _ _ => True
  | S754_infinity _ | S754_nan => False
  end.

(** The element types an image can have: unsigned and signed integers of
    [w] bits (numpy has w = 8, 16, 32, 64) and double precision floats. *)
Inductive dtype : Type :=
| UInt (w : positive)
| SInt (w : positive)
| Float64.

Definition is_integer (dt : dtype) : bool :=
  match dt with
  | UInt _ | SInt _ => true
  | Float64 => false
  end.

(** The values of one element. *)
Definition pix (dt : dtype) : Type :=
  match dt with
  | UInt _ | SInt _ => Z
  | Float64 => float64
  end.

Local Open Scope Z_scope.

(** Integer arithmetic of numpy arrays does not raise on overflow: the
    result is reduced to the [w] bits of the dtype. *)
Definition wrap_unsigned (w : positive) (x : Z) : Z := x mod 2 ^ Zpos w.

Definition wrap_signed (w : positive) (x : Z) : Z :=
  (x + 2 ^ (Zpos w - 1)) mod 2 ^ Zpos w - 2 ^ (Zpos w - 1).

Definition pix_valid (dt : dtype) : pix dt -> Prop :=
  match dt return pix dt -> Prop with
  | UInt w => fun x => 0 <= x < 2 ^ Zpos w
  | SInt w => fun x => - 2 ^ (Zpos w - 1) <= x < 2 ^ (Zpos w - 1)
  | Float64 => fun _ => True
  end.

Definition pix_sub (dt : dtype) : pix dt -> pix dt -> pix dt :=
  match dt return pix dt -> pix dt -> pix dt with
  | UInt w => fun x y => wrap_unsigned w (x - y)
  | SInt w => fun x y => wrap_signed w (x - y)
  | Float64 => f64_sub
  end.

Definition pix_add (dt : dtype) : pix dt -> pix dt -> pix dt :=
  match dt return pix dt -> pix dt -> pix dt with
  | UInt w => fun x y => wrap_unsigned w (x + y)
  | SInt w => fun x y => wrap_signed w (x + y)
  | Float64 => f64_add
  end.

(** The comparison [==] of two elements; on floats it is the IEEE one, for
    which a NaN differs from everything, itself included. *)
Definition pix_eqb (dt : dtype) : pix dt -> pix dt -> bool :=
  match dt return pix dt -> pix dt -> bool with
  | UInt _ => Z.eqb
  | SInt _ => Z.eqb
  | Float64 => f64_eqb
  end.

Definition pix_zero (dt : dtype) : pix dt :=
  match dt return pix dt with
  | UInt _ => 0
  | SInt _ => 0
  | Float64 => f64_zero
  end.


Local Close Scope Z_scope.

(** ** numpy arrays *)

(** An N-dimensional array: its shape and its elements in row-major order. *)
Record ndarray (dt : dtype) : Type := mk_ndarray {
  shape : list nat;
  data : list (pix dt)
}.

Arguments mk_ndarray {dt} shape data.

Definition ndim {dt : dtype} (a : ndarray dt) : nat := length (shape a).

Definition size_of (sh : list nat) : nat := fold_right Nat.mul 1 sh.

Definition well_formed {dt : dtype} (a : ndarray dt) : Prop :=
  length (data a) = size_of (shape a) /\ Forall (pix_valid dt) (data a).

Fixpoint zip_with {A B C : Type} (f : A -> B -> C) (l : list A) (m : list B) : list C :=
  match l, m with
  | a :: l', b :: m' => f a b :: zip_with f l' m'
  | _, _ => []
  end.

(** A binary operator applied element by element.  Operands of different
    shapes are refused: numpy would try to broadcast them, which no call of
    the notebook relies on. *)
Definition elementwise {dt : dtype} (op : pix dt -> pix dt -> pix dt)
    (a b : ndarray dt) : result (ndarray dt) :=
  if list_eq_dec Nat.eq_dec (shape a) (shape b)
  then Ok (mk_ndarray (shape a) (zip_with op (data a) (data b)))
  else Raise ValueError.

Definition nd_sub {dt : dtype} : ndarray dt -> ndarray dt -> result (ndarray dt) :=
  elementwise (pix_sub dt).

Definition nd_add {dt : dtype} : ndarray dt -> ndarray dt -> result (ndarray dt) :=
  elementwise (pix_add dt).

Fixpoint all2 {A : Type} (p : A -> A -> bool) (l m : list A) : bool :=
  match l, m with
  | [], [] => true
  | a :: l', b :: m' => p a b && all2 p l' m'
  | _, _ => false
  end.

(** [(a == b).all()] on arrays of one shape. *)
Definition nd_equal {dt : dtype} (a b : ndarray dt) : bool :=
  if list_eq_dec Nat.eq_dec (shape a) (shape b)
  then all2 (pix_eqb dt) (data a) (data b)
  else false.

(** A two-dimensional array of floats, kept by rows: what [blob_log]
    returns.  The number of columns is part of the value, since an array
    without rows still has columns. *)
Record array2 : Type := mk_array2 {
  ncols : nat;
  rows : list (list float64)
}.

Definition nrows (a : array2) : nat := length (rows a).

Definition array2_wf (a : array2) : Prop :=
  Forall (fun r => length r = ncols a) (rows a).

(** [a[:, lo:hi]]: a slice never fails, it is cut to the columns there are. *)
Definition slice_columns (a : array2) (lo hi : nat) : array2 :=
  mk_array2 (Nat.min hi (ncols a) - lo)
            (map (fun r => skipn lo (firstn hi r)) (rows a)).

(** [a[:, j]]: an index is checked against the number of columns, also
    when the array has no row. *)
Definition column (a : array2) (j : nat) : result (list float64) :=
  if (j <? ncols a)%nat
  then Ok (map (fun r => nth j r f64_nan) (rows a))
  else Raise IndexError.

(** ** The notebook's image filter and spot detector *)

(** The keyword arguments [detect_spots] gives to [blob_log]; the others
    keep the defaults of scikit-image. *)
Record blob_log_kwargs : Type := mk_kwargs {
  max_sigma : float64;
  num_sigma : nat;
  threshold : float64
}.

(** The types of the two library routines. *)
Definition gaussian_filter_t : Type :=
  forall dt : dtype, ndarray dt -> float64 -> result (ndarray dt).

Definition blob_log_t : Type :=
  forall dt : dtype, ndarray dt -> blob_log_kwargs -> result array2.

Section Detection.

Variable ndi_gaussian_filter : gaussian_filter_t.
Variable blob_log : blob_log_t.

(** [[
    def gaussian_high_pass(image, sigma=2):
        low_pass = ndi.gaussian_filter(image, sigma)
        high_passed_im = image - low_pass
        return high_passed_im
    ]] *)
Definition gaussian_high_pass {dt : dtype} (image : ndarray dt) (sigma : float64)
    : result (ndarray dt) :=
  low_pass <- ndi_gaussian_filter image sigma ;;
  high_passed_im <- nd_sub image low_pass ;;
  Ok high_passed_im.

(** [[
    def detect_spots(image, high_pass_sigma=2, spot_threshold=0.01, blob_sigma=2):
        filtered_spots = gaussian_high_pass(image, high_pass_sigma)
        blobs_log = blob_log(filtered_spots, max_sigma=blob_sigma,
                             num_sigma=1, threshold=spot_threshold)
        points_coords = blobs_log[:, 0:2]
        sizes = 3 * blobs_log[:, 2]
        return points_coords, sizes
    ]] *)
Definition detect_spots {dt : dtype} (image : ndarray dt)
    (high_pass_sigma spot_threshold blob_sigma : float64)
    : result (array2 * list float64) :=
  filtered_spots <- gaussian_high_pass image high_pass_sigma ;;
  blobs_log <- blob_log filtered_spots
                 (mk_kwargs blob_sigma 1 spot_threshold) ;;
  let points_coords := slice_columns blobs_log 0 2 in
  scales <- column blobs_log 2 ;;
  let sizes := map (f64_mul (f64_of_Z 3)) scales in
  Ok (points_coords, sizes).

End Detection.


(** *** What the statements assume of the two routines *)

(** [ndi.gaussian_filter] returns an array of the shape and dtype of its
    input. *)
Definition gaussian_filter_contract (gf : gaussian_filter_t) : Prop :=
  forall dt (image low_pass : ndarray dt) sigma,
    well_formed image ->
    gf dt image sigma = Ok low_pass ->
    shape low_pass = shape image /\ well_formed low_pass.

(** [blob_log] with scalar sigmas returns one row per blob: the
    coordinates of the blob, one per axis of the image, then its scale.
    Some releases of scikit-image return an array of shape (0, 3) when
    there is no blob, whatever the image. *)
Definition blob_log_contract (bl : blob_log_t) : Prop :=
  forall dt (image : ndarray dt) kw blobs,
    bl dt image kw = Ok blobs ->
    array2_wf blobs /\
    (ncols blobs = ndim image + 1 \/ (rows blobs = [] /\ ncols blobs = 3)).


(** ** Assigning spots to nuclei *)

(** A coordinate (row, column) as the arrays hold it: two binary64
    numbers. *)
Definition point : Type := (float64 * float64)%type.

Definition finite_point (p : point) : Prop :=
  f64_finite (fst p) /\ f64_finite (snd p).

Definition f64_inf : float64 := S754_infinity false.
Definition f64_leb : float64 -> float64 -> bool := SFleb.
Definition f64_div : float64 -> float64 -> float64 := SFdiv 53 1024.

(** The squared Euclidean distance between a row of the data and a
    queried point, as the tree computes it for two columns: the two
    differences, their squares and the sum of the squares are each
    rounded to binary64, and a square too large for binary64 is
    infinite. *)
Definition sqdist (x c : point) : float64 :=
  let d0 := f64_sub (fst c) (fst x) in
  let d1 := f64_sub (snd c) (snd x) in
  f64_add (f64_mul d0 d0) (f64_mul d1 d1).

(** The rational number that a finite binary64 number stands for, and
    the squared distance without rounding. *)
Definition f64_to_Q (x : float64) : Q :=
  match x with
  | S754_finite s m e =>
      ((if s then - (Zpos m) else Zpos m) # 1) * Qpower (2 # 1) e
  | _ => 0
  end%Q.

Definition exact_sqdist (x c : point) : Q :=
  let d0 := (f64_to_Q (fst c) - f64_to_Q (fst x))%Q in
  let d1 := (f64_to_Q (snd c) - f64_to_Q (snd x))%Q in
  (d0 * d0 + d1 * d1)%Q.

(** A label image: 0 is the background, a positive integer is a nucleus. *)
Definition label_image : Type := list (list Z).

Definition occurs (l : Z) (img : label_image) : Prop :=
  exists row, In row img /\ In l row.

(** The dictionary returned by
    [regionprops_table(nuclei_labels, properties=('label', 'centroid'))]:
    one column per key. *)
Record rp_table_t : Type := mk_rp_table {
  rp_label : list Z;
  rp_centroid_0 : list float64;
  rp_centroid_1 : list float64
}.

(** [np.column_stack((a, b))] on two one-dimensional arrays. *)
Definition column_stack (a b : list float64) : result (list point) :=
  if Nat.eqb (length a) (length b)
  then Ok (combine a b)
  else Raise ValueError.

(** [a[i]] for an integer [i]: a negative index counts from the end, an
    index outside of the array raises IndexError. *)
Definition getitem {A : Type} (a : list A) (i : Z) : result A :=
  let n := Z.of_nat (length a) in
  let k := (if i <? 0 then i + n else i)%Z in
  if ((0 <=? k) && (k <? n))%Z
  then match nth_error a (Z.to_nat k) with
       | Some x => Ok x
       | None => Raise IndexError
       end
  else Raise IndexError.

(** [a[ind]] for an array [ind] of integers. *)
Definition take {A : Type} (a : list A) (ind : list Z) : result (list A) :=
  mapM (getitem a) ind.

Section Assignment.

(** [scipy.spatial.cKDTree]: the tree built on the rows of an array, and
    its [query] method with [k=1].  Of the pair that [query] returns the
    notebook drops the distances (it binds them to [_]); the model keeps
    the other component, the indices of the nearest neighbours in the
    data, one per queried point. *)
Variable kdtree : Type.
Variable cKDTree : list point -> result kdtree.
Variable query : kdtree -> list point -> result (list Z).
Variable regionprops_table : label_image -> result rp_table_t.

(** [[
    kdt = cKDTree(nuclei_centroids)
    _, nearest_nucleus_ind = kdt.query(spot_coords, k=1)
    nearest_nucleus_label = nucleus_label_values[nearest_nucleus_ind]
    ]] *)
Definition nearest_nucleus_ind (nuclei_centroids spot_coords : list point)
    : result (list Z) :=
  kdt <- cKDTree nuclei_centroids ;;
  nearest_nucleus_ind <- query kdt spot_coords ;;
  Ok nearest_nucleus_ind.

Definition nearest_nucleus_label (nucleus_label_values : list Z)
    (nuclei_centroids spot_coords : list point) : result (list Z) :=
  ind <- nearest_nucleus_ind nuclei_centroids spot_coords ;;
  take nucleus_label_values ind.

(** The cells of the extension activity in sequence, from the label image
    of the segmentation to the label of every spot:
    [[
    rp_table = regionprops_table(nuclei_labels, properties=('label', 'centroid'))
    nuclei_centroids = np.column_stack((rp_table['centroid-0'], rp_table['centroid-1']))
    ...
    nucleus_label_values = rp_table['label']
    ]] *)
Definition assign_spots (nuclei_labels : label_image) (spot_coords : list point)
    : result (list Z) :=
  rp_table <- regionprops_table nuclei_labels ;;
  nuclei_centroids <- column_stack (rp_centroid_0 rp_table) (rp_centroid_1 rp_table) ;;
  let nucleus_label_values := rp_label rp_table in
  nearest_nucleus_label nucleus_label_values nuclei_centroids spot_coords.

(** What scipy documents of the tree, in the arithmetic it works in.
    The tree of a non-empty array of finite rows is built, and a query
    for finite points returns one index per point.  The index is that of
    a row whose computed squared distance is finite and that no row has a
    smaller computed squared distance than; or, when no row has a finite
    computed squared distance (the default [distance_upper_bound] is
    infinity, and a neighbour has to be strictly below it), it is the
    number of rows, which is how [query] reports a missing neighbour.
    The bounds by which the tree skips a subtree are taken to be lower
    bounds of the computed squared distances of its rows, so that the
    search is as good as a scan of all rows; which of several rows at
    the least computed distance is returned is left open. *)
Definition kdtree_contract : Prop :=
  forall data xs,
    data <> [] ->
    Forall finite_point data ->
    Forall finite_point xs ->
    exists kdt ind,
      cKDTree data = Ok kdt /\
      query kdt xs = Ok ind /\
      length ind = length xs /\
      forall i x j,
        nth_error xs i = Some x ->
        nth_error ind i = Some j ->
        (exists c,
           (0 <= j)%Z /\ nth_error data (Z.to_nat j) = Some c /\
           f64_ltb (sqdist x c) f64_inf = true /\
           forall c', In c' data -> f64_ltb (sqdist x c') (sqdist x c) = false) \/
        (j = Z.of_nat (length data) /\
         forall c', In c' data -> f64_ltb (sqdist x c') f64_inf = false).

(** On a label image with a nucleus the table has one row per region,
    and the regions are the positive values of the label image. *)
Definition regionprops_contract : Prop :=
  forall img,
    (exists l, (0 < l)%Z /\ occurs l img) ->
    exists rp,
      regionprops_table img = Ok rp /\
      length (rp_centroid_0 rp) = length (rp_label rp) /\
      length (rp_centroid_1 rp) = length (rp_label rp) /\
      forall l, In l (rp_label rp) <-> (0 < l)%Z /\ occurs l img.

End Assignment.

(** A spot is within reach of the centroids when its computed squared
    distance to one of them is finite. *)
Definition reachable (nuclei_centroids : list point) (s : point) : Prop :=
  exists c, In c nuclei_centroids /\ f64_ltb (sqdist s c) f64_inf = true.

(** A spot has one nearest centroid: the computed squared distance to
    the centroid at position [j] is finite and strictly below the
    computed squared distance to every other row of the array. *)
Definition no_tie (nuclei_centroids : list point) (s : point) : Prop :=
  exists j c,
    nth_error nuclei_centroids j = Some c /\
    f64_ltb (sqdist s c) f64_inf = true /\
    forall k c', k <> j -> nth_error nuclei_centroids k = Some c' ->
                 f64_ltb (sqdist s c) (sqdist s c') = true.

(** ** The colour cycle *)

Record rgba : Type := mk_rgba {
  red : Q;
  green : Q;
  blue : Q;
  alpha : Q
}.

Definition rgba_eqb (c d : rgba) : bool :=
  Qeq_bool (red c) (red d) && Qeq_bool (green c) (green d) &&
  Qeq_bool (blue c) (blue d) && Qeq_bool (alpha c) (alpha d).

(** The list [color_cycle] of the notebook, digit for digit. *)
Definition color_cycle : list rgba := [
  mk_rgba (12156863 # 100000000) (46666667 # 100000000) (70588235 # 100000000) 1;
  mk_rgba 1 (49803922 # 100000000) (5490196 # 100000000) 1;
  mk_rgba (17254902 # 100000000) (62745098 # 100000000) (17254902 # 100000000) 1;
  mk_rgba (83921569 # 100000000) (15294118 # 100000000) (15686275 # 100000000) 1;
  mk_rgba (58039216 # 100000000) (40392157 # 100000000) (74117647 # 100000000) 1;
  mk_rgba (54901961 # 100000000) (3372549 # 10000000) (29411765 # 100000000) 1;
  mk_rgba (89019608 # 100000000) (46666667 # 100000000) (76078431 # 100000000) 1;
  mk_rgba (49803922 # 100000000) (49803922 # 100000000) (49803922 # 100000000) 1;
  mk_rgba (7372549 # 10000000) (74117647 # 100000000) (13333333 # 100000000) 1;
  mk_rgba (9019608 # 100000000) (74509804 # 100000000) (81176471 # 100000000) 1
]%Q.

(** The dictionary [spots_cmap] from label to colour, in insertion order. *)
Definition colormap : Type := list (Z * rgba).

Fixpoint lookup (l : Z) (m : colormap) : option rgba :=
  match m with
  | [] => None
  | (k, c) :: m' => if Z.eqb k l then Some c else lookup l m'
  end.

(** [next] on [itertools.cycle(palette)], for the [n]-th time (from 0). *)
Definition cycle_next (palette : list rgba) (n : nat) : result rgba :=
  match nth_error palette (n mod length palette) with
  | Some c => Ok c
  | None => Raise LibraryError
  end.

(** Modelled from the spec: the categorical colormap of napari's points
    layer, which is not part of the notebook.  "A label->color mapping is
    generated by cycling through a fixed palette of 10 RGBA colors in
    nucleus-label order of first appearance": the property values are read
    in order, and a value that has no colour yet is given the next colour
    of the cycle.  [drawn] counts the colours taken from the cycle. *)
Fixpoint map_labels (palette : list rgba) (m : colormap) (drawn : nat)
    (labels : list Z) : result colormap :=
  match labels with
  | [] => Ok m
  | l :: labels' =>
      match lookup l m with
      | Some _ => map_labels palette m drawn labels'
      | None =>
          c <- cycle_next palette drawn ;;
          map_labels palette (m ++ [(l, c)]) (S drawn) labels'
      end
  end.

(** Modelled from the spec: the colormap of a layer created with
    [face_color = {'colors': 'nucleus_label', 'color_mode': 'cycle',
    'categorical_colormap': color_cycle}], from the column [nucleus_label]
    of the properties. *)
Definition categorical_colormap (palette : list rgba) (labels : list Z)
    : result colormap :=
  map_labels palette [] 0 labels.

(** The distinct values of a list, in the order of their first appearance:
    a value stays where it is met first, and its later copies are dropped. *)
Fixpoint distinct_labels (labels : list Z) : list Z :=
  match labels with
  | [] => []
  | l :: labels' => l :: filter (fun x => negb (Z.eqb x l)) (distinct_labels labels')
  end.

(** ** Reference implementations of the library routines

    Small executable routines with the contracts above.  They are not
    scipy's or scikit-image's algorithms; they let the notebook's code run
    on concrete arrays, and they show that the contracts can be met. *)

(** A low-pass filter at its widest: every element becomes the mean of
    the image (rounded down); a float image is returned as it is, which is
    what a kernel of radius 0 does. *)
Definition mean_of (xs : list Z) : Z :=
  (fold_right Z.add 0 xs / Z.of_nat (length xs))%Z.

Definition ref_gaussian_filter : gaussian_filter_t :=
  fun dt =>
    match dt return ndarray dt -> float64 -> result (ndarray dt) with
    | UInt w => fun image _ =>
        Ok (mk_ndarray (dt := UInt w) (shape image)
              (map (fun _ => mean_of (data image)) (data image)))
    | SInt w => fun image _ =>
        Ok (mk_ndarray (dt := SInt w) (shape image)
              (map (fun _ => mean_of (data image)) (data image)))
    | Float64 => fun image _ => Ok image
    end.

(** The coordinates of the element at position [i] of the row-major data
    of an array of shape [sh]. *)
Fixpoint unravel (sh : list nat) (i : nat) : list nat :=
  match sh with
  | [] => []
  | _ :: sh' => (i / size_of sh') :: unravel sh' (i mod size_of sh')
  end.

Definition pix_to_f64 (dt : dtype) : pix dt -> float64 :=
  match dt return pix dt -> float64 with
  | UInt _ => f64_of_Z
  | SInt _ => f64_of_Z
  | Float64 => fun x => x
  end.

(** The positions, counted from [i], of the elements above the threshold. *)
Fixpoint above_threshold (dt : dtype) (t : float64) (i : nat) (xs : list (pix dt))
    : list nat :=
  match xs with
  | [] => []
  | x :: xs' =>
      if f64_ltb t (pix_to_f64 dt x)
      then i :: above_threshold dt t (S i) xs'
      else above_threshold dt t (S i) xs'
  end.

(** A detector that reports every element above the threshold as a blob
    of scale [max_sigma]. *)
Definition ref_blob_log : blob_log_t :=
  fun dt image kw =>
    Ok (mk_array2 (ndim image + 1)
          (map (fun i => map (fun k => f64_of_Z (Z.of_nat k)) (unravel (shape image) i)
                         ++ [max_sigma kw])
               (above_threshold dt (threshold kw) 0 (data image)))).

(** Nearest neighbour by a scan of the rows in index order, which is
    what the tree does inside one leaf: the best distance so far starts
    at infinity, and a row is kept when its computed squared distance is
    strictly below it.  With [prefer_later] a row at the same distance as
    the best one is kept as well, which breaks ties the other way. *)
Fixpoint scan_leaf (prefer_later : bool) (x : point) (best : option (nat * float64))
    (i : nat) (rest : list point) : option (nat * float64) :=
  match rest with
  | [] => best
  | c :: rest' =>
      let d := sqdist x c in
      let better :=
        match best with
        | None => f64_ltb d f64_inf
        | Some (_, b) =>
            if prefer_later
            then f64_ltb d f64_inf && f64_leb d b
            else f64_ltb d b
        end in
      scan_leaf prefer_later x (if better then Some (i, d) else best) (S i) rest'
  end.

(** What the scan has established of the rows seen so far. *)
Definition scan_result_ok (x : point) (seen : list point)
    (best : option (nat * float64)) : Prop :=
  match best with
  | Some (j, d) =>
      exists c,
        nth_error seen j = Some c /\ d = sqdist x c /\
        f64_ltb d f64_inf = true /\
        forall c', In c' seen -> f64_ltb (sqdist x c') d = false
  | None => forall c', In c' seen -> f64_ltb (sqdist x c') f64_inf = false
  end.

Definition ref_kdtree : Type := list point.

Definition ref_cKDTree (data : list point) : result ref_kdtree := Ok data.

(** For a point without neighbour the answer is the number of rows. *)
Definition ref_query_with (prefer_later : bool) (kdt : ref_kdtree) (xs : list point)
    : result (list Z) :=
  Ok (map (fun x =>
             match scan_leaf prefer_later x None 0 kdt with
             | Some (j, _) => Z.of_nat j
             | None => Z.of_nat (length kdt)
             end) xs).

Definition ref_query : ref_kdtree -> list point -> result (list Z) :=
  ref_query_with false.

(** The elements of a label image with their coordinates. *)
Definition indexed {A : Type} (l : list A) : list (nat * A) :=
  combine (seq 0 (length l)) l.

Definition pixels (img : label_image) : list (nat * nat * Z) :=
  flat_map (fun rr => map (fun cv => (fst rr, fst cv, snd cv)) (indexed (snd rr)))
           (indexed img).

Definition max_label (img : label_image) : Z :=
  fold_right Z.max 0%Z (concat img).

Definition has_label (img : label_image) (l : Z) : bool :=
  existsb (fun row => existsb (Z.eqb l) row) img.

(** The mean of the coordinates along one axis of the elements of a region. *)
Definition mean_coordinate (coords : list nat) : float64 :=
  f64_div (f64_of_Z (Z.of_nat (fold_right Nat.add 0 coords)))
          (f64_of_Z (Z.of_nat (length coords))).

Definition region (img : label_image) (l : Z) : list (nat * nat * Z) :=
  filter (fun p => Z.eqb (snd p) l) (pixels img).

(** The regions are visited by increasing label, from 1 to the largest
    value of the image, and the values that do not occur are skipped. *)
Definition ref_regionprops_table (img : label_image) : result rp_table_t :=
  let labels :=
    filter (has_label img) (map Z.of_nat (seq 1 (Z.to_nat (max_label img)))) in
  Ok (mk_rp_table labels
        (map (fun l => mean_coordinate (map (fun p => fst (fst p)) (region img l))) labels)
        (map (fun l => mean_coordinate (map (fun p => snd (fst p)) (region img l))) labels)).

(** * Properties *)

Unset Implicit Arguments.

(** ** The error monad *)

Lemma bind_ok : forall (A B : Type) (r : result A) (k : A -> result B) (b : B),
  (x <- r ;; k x) = Ok b -> exists a, r = Ok a /\ k a = Ok b.
Proof.
  intros A B [a | e] k b H; simpl in H.
  - exists a; split; [reflexivity | exact H].
  - discriminate H.
Qed.

Lemma mapM_length : forall (A B : Type) (f : A -> result B) (l : list A) (out : list B),
  mapM f l = Ok out -> length out = length l.
Proof.
  intros A B f l; induction l as [| a l IH]; intros out H; simpl in H.
  - injection H as <-; reflexivity.
  - apply bind_ok in H as (b & Hb & H).
    apply bind_ok in H as (bs & Hbs & H).
    injection H as <-; simpl; f_equal; apply IH; exact Hbs.
Qed.

Lemma mapM_nth : forall (A B : Type) (f : A -> result B) (l : list A) (out : list B),
  mapM f l = Ok out ->
  forall i a, nth_error l i = Some a ->
  exists b, nth_error out i = Some b /\ f a = Ok b.
Proof.
  intros A B f l; induction l as [| a l IH]; intros out H i x Hi.
  - destruct i; discriminate Hi.
  - simpl in H.
    apply bind_ok in H as (b & Hb & H).
    apply bind_ok in H as (bs & Hbs & H).
    injection H as <-.
    destruct i as [| i]; simpl in Hi.
    + injection Hi as <-; exists b; split; [reflexivity | exact Hb].
    + simpl; eapply IH; eassumption.
Qed.

Lemma mapM_total : forall (A B : Type) (f : A -> result B) (l : list A),
  (forall a, In a l -> returns (f a)) -> returns (mapM f l).
Proof.
  intros A B f l; induction l as [| a l IH]; intros H; simpl.
  - exists []; reflexivity.
  - destruct (H a (or_introl eq_refl)) as [b Hb]; rewrite Hb; simpl.
    destruct IH as [bs Hbs]; [intros x Hx; apply H; right; exact Hx |].
    rewrite Hbs; simpl; exists (b :: bs); reflexivity.
Qed.

(** ** Wrap-around arithmetic *)

Lemma wrap_unsigned_sub_add : forall (w : positive) (x y : Z),
  (0 <= x < 2 ^ Zpos w)%Z ->
  wrap_unsigned w (wrap_unsigned w (x - y) + y) = x.
Proof.
  intros w x y Hx; unfold wrap_unsigned.
  rewrite Z.add_mod_idemp_l by lia.
  replace (x - y + y)%Z with x by lia.
  apply Z.mod_small; exact Hx.
Qed.

Lemma wrap_signed_sub_add : forall (w : positive) (x y : Z),
  (- 2 ^ (Zpos w - 1) <= x < 2 ^ (Zpos w - 1))%Z ->
  wrap_signed w (wrap_signed w (x - y) + y) = x.
Proof.
  intros w x y Hx; unfold wrap_signed.
  assert (Hm : (2 ^ Zpos w = 2 * 2 ^ (Zpos w - 1))%Z).
  { rewrite <- Z.pow_succ_r by lia; f_equal; lia. }
  set (h := (2 ^ (Zpos w - 1))%Z) in *.
  set (m := (2 ^ Zpos w)%Z) in *.
  assert (Hh : (0 < h)%Z) by (apply Z.pow_pos_nonneg; lia).
  replace ((x - y + h) mod m - h + y + h)%Z with ((x - y + h) mod m + y)%Z by lia.
  rewrite Z.add_mod_idemp_l by lia.
  replace (x - y + h + y)%Z with (x + h)%Z by lia.
  rewrite Z.mod_small by lia; lia.
Qed.

Lemma pix_sub_add : forall (dt : dtype) (x y : pix dt),
  is_integer dt = true -> pix_valid dt x ->
  pix_add dt (pix_sub dt x y) y = x.
Proof.
  intros [w | w |] x y Hint Hx; simpl in *.
  - apply wrap_unsigned_sub_add; exact Hx.
  - apply wrap_signed_sub_add; exact Hx.
  - discriminate Hint.
Qed.

Lemma pix_eqb_refl : forall (dt : dtype) (x : pix dt),
  is_integer dt = true -> pix_eqb dt x x = true.
Proof.
  intros [w | w |] x Hint; simpl in *; try apply Z.eqb_refl; discriminate Hint.
Qed.

(** ** Arrays *)

Lemma zip_with_length : forall (A B C : Type) (f : A -> B -> C) (l : list A) (m : list B),
  length l = length m -> length (zip_with f l m) = length l.
Proof.
  intros A B C f l; induction l as [| a l IH]; intros [| b m] H; simpl in *;
    try reflexivity; try discriminate H.
  f_equal; apply IH; lia.
Qed.

Lemma zip_sub_add : forall (dt : dtype) (l m : list (pix dt)),
  is_integer dt = true -> length l = length m -> Forall (pix_valid dt) l ->
  zip_with (pix_add dt) (zip_with (pix_sub dt) l m) m = l.
Proof.
  intros dt l; induction l as [| a l IH]; intros [| b m] Hint Hlen Hv; simpl in *;
    try reflexivity; try discriminate Hlen.
  inversion Hv as [| ? ? Ha Hl]; subst.
  rewrite pix_sub_add by assumption.
  f_equal; apply IH; auto.
Qed.

Lemma all2_refl : forall (dt : dtype) (l : list (pix dt)),
  is_integer dt = true -> all2 (pix_eqb dt) l l = true.
Proof.
  intros dt l Hint; induction l as [| a l IH]; simpl; [reflexivity |].
  rewrite pix_eqb_refl by exact Hint; exact IH.
Qed.

Lemma elementwise_ok : forall (dt : dtype) (op : pix dt -> pix dt -> pix dt)
    (a b : ndarray dt),
  shape a = shape b ->
  elementwise op a b = Ok (mk_ndarray (shape a) (zip_with op (data a) (data b))).
Proof.
  intros dt op a b H; unfold elementwise.
  destruct (list_eq_dec Nat.eq_dec (shape a) (shape b)) as [_ | n];
    [reflexivity | contradiction].
Qed.

Lemma well_formed_same_length : forall (dt : dtype) (a b : ndarray dt),
  well_formed a -> well_formed b -> shape b = shape a ->
  length (data a) = length (data b).
Proof.
  intros dt a b [Ha _] [Hb _] Hs; rewrite Ha, Hb, Hs; reflexivity.
Qed.

(** ** The reference low-pass filter meets the contract of the filter *)

Lemma sum_bounds : forall (lo hi : Z) (xs : list Z),
  Forall (fun x => lo <= x < hi)%Z xs ->
  (Z.of_nat (length xs) * lo <= fold_right Z.add 0 xs)%Z /\
  (fold_right Z.add 0 xs <= Z.of_nat (length xs) * (hi - 1))%Z.
Proof.
  intros lo hi xs H; induction H as [| x xs Hx _ [IHl IHu]].
  - simpl; lia.
  - cbn [length fold_right]; rewrite Nat2Z.inj_succ; lia.
Qed.

Lemma mean_of_bounds : forall (lo hi : Z) (xs : list Z),
  xs <> [] -> Forall (fun x => lo <= x < hi)%Z xs ->
  (lo <= mean_of xs < hi)%Z.
Proof.
  intros lo hi xs Hne H.
  destruct (sum_bounds lo hi xs H) as [Hl Hu].
  assert (Hn : (0 < Z.of_nat (length xs))%Z) by (destruct xs; [congruence | simpl; lia]).
  unfold mean_of; split.
  - apply Z.div_le_lower_bound; [exact Hn | exact Hl].
  - apply Z.div_lt_upper_bound; [exact Hn | nia].
Qed.

Lemma mean_image_valid : forall (lo hi : Z) (xs : list Z),
  Forall (fun x => lo <= x < hi)%Z xs ->
  Forall (fun x => lo <= x < hi)%Z (map (fun _ => mean_of xs) xs).
Proof.
  intros lo hi xs H.
  destruct xs as [| x xs]; [constructor |].
  apply Forall_forall; intros y Hy.
  apply in_map_iff in Hy as (_ & <- & _).
  apply mean_of_bounds; [discriminate | exact H].
Qed.

Lemma ref_gaussian_filter_contract : gaussian_filter_contract ref_gaussian_filter.
Proof.
  intros [w | w |] image low_pass sigma [Hlen Hv] H; simpl in H;
    injection H as <-; simpl.
  - split; [reflexivity | split; simpl].
    + rewrite length_map; exact Hlen.
    + apply (mean_image_valid 0%Z); exact Hv.
  - split; [reflexivity | split; simpl].
    + rewrite length_map; exact Hlen.
    + apply mean_image_valid; exact Hv.
  - split; [reflexivity | split; assumption].
Qed.

(** ** The high-pass filter *)

Lemma gaussian_high_pass_ok : forall (gf : gaussian_filter_t) (dt : dtype)
    (image low_pass : ndarray dt) (sigma : float64),
  gf dt image sigma = Ok low_pass ->
  shape low_pass = shape image ->
  gaussian_high_pass gf image sigma
  = Ok (mk_ndarray (shape image)
          (zip_with (pix_sub dt) (data image) (data low_pass))).
Proof.
  intros gf dt image low_pass sigma Hgf Hs.
  unfold gaussian_high_pass; rewrite Hgf; simpl.
  unfold nd_sub; rewrite elementwise_ok by (symmetry; exact Hs).
  reflexivity.
Qed.

(** C2, as amended.  Whenever the Gaussian filter returns, the high-pass
    filter returns an array of the shape of the image, with as many
    elements; and for an image of an integer dtype, unsigned or signed of
    any width, adding the low-pass image back gives the image exactly:
    the sum is the image, and it compares equal to it element by element.
    Both operations wrap around, and they wrap back. *)
Theorem gaussian_high_pass_reconstructs :
  forall (gf : gaussian_filter_t) (dt : dtype) (image low_pass : ndarray dt)
         (sigma : float64),
    gaussian_filter_contract gf ->
    well_formed image ->
    gf dt image sigma = Ok low_pass ->
    exists high_passed_im,
      gaussian_high_pass gf image sigma = Ok high_passed_im /\
      shape high_passed_im = shape image /\
      length (data high_passed_im) = length (data image) /\
      (is_integer dt = true ->
       exists sum,
         nd_add high_passed_im low_pass = Ok sum /\
         sum = image /\ nd_equal sum image = true).
Proof.
  intros gf dt image low_pass sigma Hc Hwf Hgf.
  destruct (Hc dt image low_pass sigma Hwf Hgf) as [Hs Hlp].
  pose proof (well_formed_same_length dt image low_pass Hwf Hlp Hs) as Hlen.
  eexists; split; [apply gaussian_high_pass_ok; eassumption |].
  simpl; split; [reflexivity | split].
  - apply zip_with_length; exact Hlen.
  - intros Hint; exists image; split; [| split; [reflexivity |]].
    + unfold nd_add; rewrite elementwise_ok by (simpl; symmetry; exact Hs).
      simpl; rewrite zip_sub_add;
        [destruct image; reflexivity | exact Hint | exact Hlen | exact (proj2 Hwf)].
    + unfold nd_equal.
      destruct (list_eq_dec Nat.eq_dec (shape image) (shape image)) as [_ | n];
        [apply all2_refl; exact Hint | contradiction].
Qed.

(** A 2x2 image of unsigned 16-bit integers whose high-pass values wrap
    around: the mean is 70, and 10 - 70 is stored as 65476. *)
Lemma gaussian_high_pass_reconstructs_witness :
  let image := mk_ndarray (dt := UInt 16) [2; 2] [10; 200; 30; 40]%Z in
  let low_pass := mk_ndarray (dt := UInt 16) [2; 2] [70; 70; 70; 70]%Z in
  exists high_passed_im,
    gaussian_high_pass ref_gaussian_filter image (f64_of_Z 2) = Ok high_passed_im /\
    shape high_passed_im = shape image /\
    length (data high_passed_im) = length (data image) /\
    (is_integer (UInt 16) = true ->
     exists sum,
       nd_add high_passed_im low_pass = Ok sum /\
       sum = image /\ nd_equal sum image = true).
Proof.
  intros image low_pass.
  apply (gaussian_high_pass_reconstructs ref_gaussian_filter (UInt 16) image
           low_pass (f64_of_Z 2)).
  - exact ref_gaussian_filter_contract.
  - split; [reflexivity |].
    repeat constructor; simpl; lia.
  - reflexivity.
Defined.

(** *** Floating-point images *)

Lemma f64_sub_nan_l : forall y : float64, f64_sub f64_nan y = f64_nan.
Proof. intros y; destruct y; reflexivity. Qed.

Lemma f64_add_nan_l : forall y : float64, f64_add f64_nan y = f64_nan.
Proof. intros y; destruct y; reflexivity. Qed.

(** A NaN element is not recovered, whatever the filter returns for it:
    the difference is NaN, the sum is NaN, and NaN compares unequal. *)
Lemma nan_pixel_not_recovered : forall y : float64,
  f64_eqb (f64_add (f64_sub f64_nan y) y) f64_nan = false.
Proof.
  intros y; rewrite f64_sub_nan_l, f64_add_nan_l; reflexivity.
Qed.

(** Finite elements are not always recovered either: with 0.1 in the image
    and 3.0 in the blurred image, the difference is rounded, and the sum
    is 0.10000000000000009. *)
Example rounded_pixel_not_recovered :
  let x := SFdiv 53 1024 (f64_of_Z 1) (f64_of_Z 10) in
  let y := f64_of_Z 3 in
  f64_add (f64_sub x y) y = S754_finite false 7205759403792800 (-56) /\
  x = S754_finite false 7205759403792794 (-56) /\
  f64_eqb (f64_add (f64_sub x y) y) x = false.
Proof. vm_compute; repeat split. Qed.

(** C2, as it is stated, fails on an image of floats: for the 1x1 image
    whose element is NaN the filter returns, the high-pass filter returns
    an array of the same shape, and the sum of the high-pass and low-pass
    images does not compare equal to the image. *)
Lemma gaussian_high_pass_float_counterexample :
  let image := mk_ndarray (dt := Float64) [1; 1] [f64_nan] in
  let sigma := f64_of_Z 2 in
  well_formed image /\
  f64_ltb f64_zero sigma = true /\
  ref_gaussian_filter image sigma = Ok image /\
  gaussian_high_pass ref_gaussian_filter image sigma = Ok image /\
  nd_add image image = Ok image /\
  nd_equal image image = false.
Proof.
  vm_compute; repeat split; repeat constructor.
Qed.

(** The same failure for any filter that returns an array of the shape of
    this image. *)
Lemma gaussian_high_pass_nan_any_filter :
  forall (gf : gaussian_filter_t) (low_pass : ndarray Float64) (sigma : float64),
    let image := mk_ndarray (dt := Float64) [1; 1] [f64_nan] in
    gf Float64 image sigma = Ok low_pass ->
    shape low_pass = shape image ->
    exists high_passed_im sum,
      gaussian_high_pass gf image sigma = Ok high_passed_im /\
      nd_add high_passed_im low_pass = Ok sum /\
      nd_equal sum image = false.
Proof.
  intros gf low_pass sigma image Hgf Hs.
  exists (mk_ndarray (shape image) (zip_with (pix_sub Float64) (data image) (data low_pass))).
  eexists; split; [apply gaussian_high_pass_ok; assumption |].
  split.
  - unfold nd_add; apply elementwise_ok; simpl; symmetry; exact Hs.
  - unfold nd_equal; cbn [shape data image].
    destruct (list_eq_dec Nat.eq_dec [1; 1] [1; 1]) as [_ | n]; [| contradiction].
    destruct (data low_pass) as [| y ys]; [reflexivity |].
    cbn [zip_with all2 pix_sub pix_add pix_eqb].
    change (f64_sub S754_nan y) with (f64_sub f64_nan y).
    rewrite nan_pixel_not_recovered; reflexivity.
Qed.

Lemma f64_sub_diag : forall x : float64, f64_finite x -> f64_sub x x = f64_zero.
Proof.
  intros [s | s | | s m e] Hx; simpl in Hx; try contradiction.
  - destruct s; reflexivity.
  - unfold f64_sub, SFsub.
    rewrite Z.sub_diag; reflexivity.
Qed.






(** ** The reference detector meets the contracts of the detector *)

Lemma unravel_length : forall (sh : list nat) (i : nat),
  length (unravel sh i) = length sh.
Proof.
  intros sh; induction sh as [| d sh IH]; intros i; simpl;
    [reflexivity | f_equal; apply IH].
Qed.

Lemma ref_blob_log_contract : blob_log_contract ref_blob_log.
Proof.
  intros dt image kw blobs H; injection H as <-; split; [| left; reflexivity].
  unfold array2_wf; simpl.
  apply Forall_forall; intros r Hr.
  apply in_map_iff in Hr as (i & <- & _).
  rewrite length_app, length_map, unravel_length; reflexivity.
Qed.





(** ** The spot detector *)

Lemma column_ok : forall (a : array2) (j : nat),
  j < ncols a -> column a j = Ok (map (fun r => nth j r f64_nan) (rows a)).
Proof.
  intros a j H; unfold column.
  destruct (Nat.ltb_spec j (ncols a)); [reflexivity | lia].
Qed.

Lemma column_index_error : forall (a : array2) (j : nat),
  ncols a <= j -> column a j = Raise IndexError.
Proof.
  intros a j H; unfold column.
  destruct (Nat.ltb_spec j (ncols a)); [lia | reflexivity].
Qed.

Lemma slice_first_two : forall a : array2,
  2 <= ncols a ->
  slice_columns a 0 2 = mk_array2 2 (map (firstn 2) (rows a)).
Proof.
  intros a H; unfold slice_columns; f_equal.
  rewrite Nat.min_l by exact H; reflexivity.
Qed.

Lemma gaussian_high_pass_shape : forall (gf : gaussian_filter_t) (dt : dtype)
    (image filtered : ndarray dt) (sigma : float64),
  gaussian_high_pass gf image sigma = Ok filtered ->
  shape filtered = shape image.
Proof.
  intros gf dt image filtered sigma H; unfold gaussian_high_pass in H.
  apply bind_ok in H as (low_pass & _ & H).
  apply bind_ok in H as (hp & Hsub & H); injection H as <-.
  unfold nd_sub, elementwise in Hsub.
  destruct (list_eq_dec Nat.eq_dec (shape image) (shape low_pass));
    [injection Hsub as <-; reflexivity | discriminate Hsub].
Qed.

Section DetectionProperties.

Variable gf : gaussian_filter_t.
Variable bl : blob_log_t.

(** The last three lines of [detect_spots], once the detector has
    returned an array of three columns or more. *)
Lemma detect_spots_ok : forall (dt : dtype) (image filtered : ndarray dt)
    (hs thr bs : float64) (blobs : array2),
  gaussian_high_pass gf image hs = Ok filtered ->
  bl dt filtered (mk_kwargs bs 1 thr) = Ok blobs ->
  3 <= ncols blobs ->
  detect_spots gf bl image hs thr bs
  = Ok (mk_array2 2 (map (firstn 2) (rows blobs)),
        map (fun r => f64_mul (f64_of_Z 3) (nth 2 r f64_nan)) (rows blobs)).
Proof.
  intros dt image filtered hs thr bs blobs Hf Hb Hc.
  unfold detect_spots; rewrite Hf; simpl; rewrite Hb; simpl.
  rewrite column_ok by lia; simpl.
  rewrite slice_first_two by lia.
  rewrite map_map; reflexivity.
Qed.

(** With fewer than three columns the index 2 is refused. *)
Lemma detect_spots_index_error : forall (dt : dtype) (image filtered : ndarray dt)
    (hs thr bs : float64) (blobs : array2),
  gaussian_high_pass gf image hs = Ok filtered ->
  bl dt filtered (mk_kwargs bs 1 thr) = Ok blobs ->
  ncols blobs < 3 ->
  detect_spots gf bl image hs thr bs = Raise IndexError.
Proof.
  intros dt image filtered hs thr bs blobs Hf Hb Hc.
  unfold detect_spots; rewrite Hf; simpl; rewrite Hb; simpl.
  rewrite column_index_error by lia; reflexivity.
Qed.

(** What the filter or the detector raises, [detect_spots] raises. *)
Lemma detect_spots_filter_error : forall (dt : dtype) (image : ndarray dt)
    (hs thr bs : float64) (e : exn),
  gaussian_high_pass gf image hs = Raise e ->
  detect_spots gf bl image hs thr bs = Raise e.
Proof.
  intros dt image hs thr bs e Hf; unfold detect_spots; rewrite Hf; reflexivity.
Qed.

Lemma detect_spots_detector_error : forall (dt : dtype) (image filtered : ndarray dt)
    (hs thr bs : float64) (e : exn),
  gaussian_high_pass gf image hs = Ok filtered ->
  bl dt filtered (mk_kwargs bs 1 thr) = Raise e ->
  detect_spots gf bl image hs thr bs = Raise e.
Proof.
  intros dt image filtered hs thr bs e Hf Hb.
  unfold detect_spots; rewrite Hf; simpl; rewrite Hb; reflexivity.
Qed.

(** A result of [detect_spots] comes from an array of the detector. *)
Lemma detect_spots_inv : forall (dt : dtype) (image : ndarray dt)
    (hs thr bs : float64) (pc : array2) (sizes : list float64),
  detect_spots gf bl image hs thr bs = Ok (pc, sizes) ->
  exists filtered blobs,
    gaussian_high_pass gf image hs = Ok filtered /\
    bl dt filtered (mk_kwargs bs 1 thr) = Ok blobs /\
    3 <= ncols blobs /\
    pc = mk_array2 2 (map (firstn 2) (rows blobs)) /\
    sizes = map (fun r => f64_mul (f64_of_Z 3) (nth 2 r f64_nan)) (rows blobs).
Proof.
  intros dt image hs thr bs pc sizes H.
  destruct (gaussian_high_pass gf image hs) as [filtered | e] eqn:Hf;
    [| rewrite (detect_spots_filter_error _ _ _ thr bs _ Hf) in H; discriminate H].
  destruct (bl dt filtered (mk_kwargs bs 1 thr)) as [blobs | e] eqn:Hb;
    [| rewrite (detect_spots_detector_error _ _ _ _ _ _ _ Hf Hb) in H; discriminate H].
  destruct (le_lt_dec 3 (ncols blobs)) as [Hc | Hc];
    [| rewrite (detect_spots_index_error _ _ _ _ _ _ _ Hf Hb Hc) in H; discriminate H].
  rewrite (detect_spots_ok _ _ _ _ _ _ _ Hf Hb Hc) in H; injection H as <- <-.
  exists filtered, blobs; repeat split; assumption.
Qed.

End DetectionProperties.

Lemma row_three_columns : forall (blobs : array2) (i : nat) (r : list float64),
  array2_wf blobs -> 3 <= ncols blobs ->
  nth_error (rows blobs) i = Some r ->
  exists y x s rest, r = y :: x :: s :: rest.
Proof.
  intros blobs i r Hwf Hc Hi.
  apply nth_error_In in Hi.
  unfold array2_wf in Hwf; rewrite Forall_forall in Hwf.
  specialize (Hwf r Hi).
  destruct r as [| y [| x [| s rest]]]; simpl in Hwf; try lia.
  exists y, x, s, rest; reflexivity.
Qed.

(** C3.  [detect_spots] is the high-pass filter with [high_pass_sigma]
    followed by [blob_log] on the filtered image with
    [max_sigma = blob_sigma], [num_sigma = 1] and
    [threshold = spot_threshold]: whatever array of three columns or more
    the detector returns on the filtered image, [detect_spots] returns its
    rows cut to their first two elements as the coordinates, and 3 times
    the third element of every row as the sizes. *)
Theorem detect_spots_composition :
  forall (gf : gaussian_filter_t) (bl : blob_log_t) (dt : dtype)
         (image filtered : ndarray dt) (hs thr bs : float64) (blobs : array2),
    gaussian_high_pass gf image hs = Ok filtered ->
    bl dt filtered (mk_kwargs bs 1 thr) = Ok blobs ->
    array2_wf blobs ->
    3 <= ncols blobs ->
    exists pc sizes,
      detect_spots gf bl image hs thr bs = Ok (pc, sizes) /\
      ncols pc = 2 /\
      nrows pc = nrows blobs /\
      length sizes = nrows blobs /\
      forall i r,
        nth_error (rows blobs) i = Some r ->
        exists y x s rest,
          r = y :: x :: s :: rest /\
          nth_error (rows pc) i = Some [y; x] /\
          nth_error sizes i = Some (f64_mul (f64_of_Z 3) s).
Proof.
  intros gf bl dt image filtered hs thr bs blobs Hf Hb Hwf Hc.
  eexists; eexists; split; [eapply detect_spots_ok; eassumption |].
  unfold nrows; simpl; rewrite !length_map.
  repeat split.
  intros i r Hi.
  destruct (row_three_columns blobs i r Hwf Hc Hi) as (y & x & s & rest & ->).
  exists y, x, s, rest; split; [reflexivity |].
  rewrite !nth_error_map, Hi; split; reflexivity.
Qed.

(** A 3x3 image of signed integers with one bright element: the mean is
    10, the reference detector reports the element at row 1, column 2, and
    the size is 3 times the scale 2. *)
Lemma detect_spots_composition_witness :
  let image := mk_ndarray (dt := SInt 16) [3; 3] [5; 5; 5; 5; 5; 50; 5; 5; 5]%Z in
  exists pc sizes,
    detect_spots ref_gaussian_filter ref_blob_log image
      (f64_of_Z 2) (f64_of_Z 30) (f64_of_Z 2) = Ok (pc, sizes) /\
    ncols pc = 2 /\
    nrows pc = 1 /\
    length sizes = 1 /\
    forall i r,
      nth_error [[f64_of_Z 1; f64_of_Z 2; f64_of_Z 2]] i = Some r ->
      exists y x s rest,
        r = y :: x :: s :: rest /\
        nth_error (rows pc) i = Some [y; x] /\
        nth_error sizes i = Some (f64_mul (f64_of_Z 3) s).
Proof.
  intros image.
  apply (detect_spots_composition ref_gaussian_filter ref_blob_log (SInt 16)
           image
           (mk_ndarray (dt := SInt 16) [3; 3] [-5; -5; -5; -5; -5; 40; -5; -5; -5]%Z)
           (f64_of_Z 2) (f64_of_Z 30) (f64_of_Z 2)
           (mk_array2 3 [[f64_of_Z 1; f64_of_Z 2; f64_of_Z 2]])).
  - reflexivity.
  - reflexivity.
  - repeat constructor.
  - simpl; lia.
Defined.

(** C4.  The two arrays returned by [detect_spots] have the same length,
    and they are aligned: row [i] of the coordinates and element [i] of
    the sizes are computed from the same row [i] of the detector's output. *)
Theorem detect_spots_aligned :
  forall (gf : gaussian_filter_t) (bl : blob_log_t) (dt : dtype)
         (image : ndarray dt) (hs thr bs : float64)
         (points_coords : array2) (sizes : list float64),
    detect_spots gf bl image hs thr bs = Ok (points_coords, sizes) ->
    nrows points_coords = length sizes /\
    exists filtered blobs,
      gaussian_high_pass gf image hs = Ok filtered /\
      bl dt filtered (mk_kwargs bs 1 thr) = Ok blobs /\
      nrows blobs = length sizes /\
      forall i r,
        nth_error (rows blobs) i = Some r ->
        nth_error (rows points_coords) i = Some (firstn 2 r) /\
        nth_error sizes i = Some (f64_mul (f64_of_Z 3) (nth 2 r f64_nan)).
Proof.
  intros gf bl dt image hs thr bs pc sizes H.
  apply detect_spots_inv in H as (filtered & blobs & Hf & Hb & _ & -> & ->).
  unfold nrows; simpl; rewrite !length_map; split; [reflexivity |].
  exists filtered, blobs; repeat split; try assumption.
  - rewrite nth_error_map, H; reflexivity.
  - rewrite nth_error_map, H; reflexivity.
Qed.

Lemma detect_spots_aligned_witness :
  let image := mk_ndarray (dt := SInt 16) [3; 3] [5; 60; 5; 5; 5; 50; 5; 5; 5]%Z in
  let points_coords :=
    mk_array2 2 [[f64_of_Z 0; f64_of_Z 1]; [f64_of_Z 1; f64_of_Z 2]] in
  let sizes := [f64_of_Z 6; f64_of_Z 6] in
  nrows points_coords = length sizes /\
  exists filtered blobs,
    gaussian_high_pass ref_gaussian_filter image (f64_of_Z 2) = Ok filtered /\
    ref_blob_log filtered (mk_kwargs (f64_of_Z 2) 1 (f64_of_Z 30)) = Ok blobs /\
    nrows blobs = length sizes /\
    forall i r,
      nth_error (rows blobs) i = Some r ->
      nth_error (rows points_coords) i = Some (firstn 2 r) /\
      nth_error sizes i = Some (f64_mul (f64_of_Z 3) (nth 2 r f64_nan)).
Proof.
  intros image points_coords sizes.
  apply (detect_spots_aligned ref_gaussian_filter ref_blob_log (SInt 16) image
           (f64_of_Z 2) (f64_of_Z 30) (f64_of_Z 2)).
  reflexivity.
Defined.

Lemma row_coordinates_then_scale : forall (r : list float64) (d : nat),
  length r = d + 1 ->
  exists coords scale, r = coords ++ [scale] /\ length coords = d.
Proof.
  intros r d H.
  assert (Hs : length (skipn d r) = 1) by (rewrite length_skipn; lia).
  destruct (skipn d r) as [| scale [| x tl]] eqn:E; simpl in Hs; try lia.
  exists (firstn d r), scale; split.
  - rewrite <- E; symmetry; apply firstn_skipn.
  - rewrite length_firstn; lia.
Qed.

(** C10.  The coordinate array returned by [detect_spots] has two
    columns, and every row of it two elements, whatever the number [D]
    of axes of the image.  For [D > 2] it therefore is not an N x D array;
    the detector's rows are then the [D] coordinates of a blob followed by
    its scale, and the size is 3 times the third coordinate, not the
    scale. *)
Theorem detect_spots_two_columns :
  forall (gf : gaussian_filter_t) (bl : blob_log_t) (dt : dtype)
         (image : ndarray dt) (hs thr bs : float64)
         (points_coords : array2) (sizes : list float64),
    blob_log_contract bl ->
    detect_spots gf bl image hs thr bs = Ok (points_coords, sizes) ->
    ncols points_coords = 2 /\
    Forall (fun p => length p = 2) (rows points_coords) /\
    (2 < ndim image ->
     ncols points_coords <> ndim image /\
     exists filtered blobs,
       gaussian_high_pass gf image hs = Ok filtered /\
       bl dt filtered (mk_kwargs bs 1 thr) = Ok blobs /\
       forall i r,
         nth_error (rows blobs) i = Some r ->
         exists coords scale,
           r = coords ++ [scale] /\
           length coords = ndim image /\
           nth_error (rows points_coords) i = Some (firstn 2 coords) /\
           nth_error sizes i
           = Some (f64_mul (f64_of_Z 3) (nth 2 coords f64_nan))).
Proof.
  intros gf bl dt image hs thr bs pc sizes Hbl H.
  apply detect_spots_inv in H as (filtered & blobs & Hf & Hb & Hc & -> & ->).
  destruct (Hbl dt filtered _ blobs Hb) as [Hwf Hcols].
  unfold array2_wf in Hwf; rewrite Forall_forall in Hwf.
  cbn [ncols rows]; split; [reflexivity | split].
  - apply Forall_forall; intros p Hp.
    apply in_map_iff in Hp as (r & <- & Hr).
    rewrite length_firstn, (Hwf r Hr); lia.
  - intros HD; split; [lia |].
    exists filtered, blobs; split; [exact Hf | split; [exact Hb |]].
    intros i r Hi.
    assert (Hlen : length r = ndim image + 1).
    { destruct Hcols as [Hn | [Hnil _]].
      - rewrite (Hwf r (nth_error_In _ _ Hi)), Hn.
        unfold ndim; rewrite (gaussian_high_pass_shape gf dt image filtered hs Hf).
        reflexivity.
      - rewrite Hnil in Hi; destruct i; discriminate Hi. }
    destruct (row_coordinates_then_scale r (ndim image) Hlen)
      as (coords & scale & -> & Hcoords).
    exists coords, scale; split; [reflexivity | split; [exact Hcoords |]].
    rewrite !nth_error_map, Hi; cbn [option_map]; split.
    + rewrite firstn_app.
      replace (2 - length coords) with 0 by lia.
      simpl; rewrite app_nil_r; reflexivity.
    + rewrite app_nth1 by lia; reflexivity.
Qed.

(** A 2x2x2 volume with one bright voxel at (1, 0, 1): the detector's row
    is (1, 0, 1, 2), the coordinates returned are (1, 0), and the size
    returned is 3, three times the third coordinate. *)
Lemma detect_spots_two_columns_witness :
  let image := mk_ndarray (dt := SInt 16) [2; 2; 2] [8; 8; 8; 8; 8; 80; 8; 8]%Z in
  let points_coords := mk_array2 2 [[f64_of_Z 1; f64_of_Z 0]] in
  let sizes := [f64_of_Z 3] in
  ncols points_coords = 2 /\
  Forall (fun p => length p = 2) (rows points_coords) /\
  (2 < ndim image ->
   ncols points_coords <> ndim image /\
   exists filtered blobs,
     gaussian_high_pass ref_gaussian_filter image (f64_of_Z 2) = Ok filtered /\
     ref_blob_log filtered (mk_kwargs (f64_of_Z 2) 1 (f64_of_Z 30)) = Ok blobs /\
     forall i r,
       nth_error (rows blobs) i = Some r ->
       exists coords scale,
         r = coords ++ [scale] /\
         length coords = ndim image /\
         nth_error (rows points_coords) i = Some (firstn 2 coords) /\
         nth_error sizes i
         = Some (f64_mul (f64_of_Z 3) (nth 2 coords f64_nan))).
Proof.
  intros image points_coords sizes.
  apply (detect_spots_two_columns ref_gaussian_filter ref_blob_log (SInt 16) image
           (f64_of_Z 2) (f64_of_Z 30) (f64_of_Z 2)).
  - exact ref_blob_log_contract.
  - reflexivity.
Defined.







(** ** The order of binary64 numbers *)

Lemma pos_compare_cont_eq : forall m n : positive,
  Pos.compare_cont Eq m n = Pos.compare m n.
Proof. reflexivity. Qed.

Ltac order_cases :=
  repeat match goal with
         | |- context [PosDef.Pos.compare_cont Eq ?a ?b] =>
             change (PosDef.Pos.compare_cont Eq a b) with (Pos.compare a b)
         | H : context [PosDef.Pos.compare_cont Eq ?a ?b] |- _ =>
             change (PosDef.Pos.compare_cont Eq a b) with (Pos.compare a b) in H
         | |- context [Z.compare ?a ?b] => destruct (Z.compare_spec a b)
         | H : context [Z.compare ?a ?b] |- _ => destruct (Z.compare_spec a b)
         | |- context [Pos.compare ?a ?b] => destruct (Pos.compare_spec a b)
         | H : context [Pos.compare ?a ?b] |- _ => destruct (Pos.compare_spec a b)
         end;
  subst; simpl in *; try discriminate; try reflexivity; try lia.

Lemma f64_ltb_irrefl : forall a : float64, f64_ltb a a = false.
Proof.
  intros [s | s | | s m e]; try reflexivity; try (destruct s; reflexivity).
  unfold f64_ltb, SFltb, SFcompare; rewrite pos_compare_cont_eq.
  destruct s; order_cases.
Qed.

Lemma f64_ltb_trans : forall a b c : float64,
  f64_ltb a b = true -> f64_ltb b c = true -> f64_ltb a c = true.
Proof.
  intros [sa | sa | | sa ma ea] [sb | sb | | sb mb eb] [sc | sc | | sc mc ec];
    unfold f64_ltb, SFltb, SFcompare; rewrite ?pos_compare_cont_eq;
    try discriminate; try reflexivity;
    try (destruct sa; discriminate); try (destruct sb; discriminate);
    try (destruct sc; discriminate);
    destruct sa; try discriminate; try reflexivity;
    destruct sb; try discriminate; try reflexivity;
    destruct sc; try discriminate; try reflexivity;
    intros H1 H2; order_cases.
Qed.

Lemma f64_ltb_leb_trans : forall a b c : float64,
  f64_ltb a b = true -> f64_leb b c = true -> f64_ltb a c = true.
Proof.
  intros [sa | sa | | sa ma ea] [sb | sb | | sb mb eb] [sc | sc | | sc mc ec];
    unfold f64_ltb, f64_leb, SFltb, SFleb, SFcompare; rewrite ?pos_compare_cont_eq;
    try discriminate; try reflexivity;
    try (destruct sa; discriminate); try (destruct sb; discriminate);
    try (destruct sc; discriminate);
    destruct sa; try discriminate; try reflexivity;
    destruct sb; try discriminate; try reflexivity;
    destruct sc; try discriminate; try reflexivity;
    intros H1 H2; order_cases.
Qed.

Lemma f64_ltb_leb : forall a b : float64,
  f64_ltb a b = true -> f64_leb a b = true.
Proof.
  intros a b; unfold f64_ltb, f64_leb, SFltb, SFleb.
  destruct (SFcompare a b) as [[| |] |]; try discriminate; reflexivity.
Qed.

(** ** Indexing *)

Lemma getitem_ok : forall (A : Type) (a : list A) (j : Z) (x : A),
  (0 <= j)%Z -> nth_error a (Z.to_nat j) = Some x -> getitem a j = Ok x.
Proof.
  intros A a j x Hj Hx; unfold getitem.
  assert (Hlt : Z.to_nat j < length a) by (apply nth_error_Some; congruence).
  destruct (Z.ltb_spec j 0); [lia |].
  destruct (Z.leb_spec 0 j); [| lia].
  destruct (Z.ltb_spec j (Z.of_nat (length a))); [| lia].
  simpl; rewrite Hx; reflexivity.
Qed.

(** Nothing can be read from an empty array. *)
Lemma getitem_empty : forall (A : Type) (j : Z),
  getitem (@nil A) j = Raise IndexError.
Proof.
  intros A j; unfold getitem; simpl.
  destruct (Z.ltb_spec j 0).
  - destruct (Z.leb_spec 0 (j + 0)); [lia | reflexivity].
  - destruct (Z.ltb_spec j 0); [lia |].
    rewrite andb_false_r; reflexivity.
Qed.

Lemma take_empty : forall (A : Type) (j : Z) (ind : list Z),
  take (@nil A) (j :: ind) = Raise IndexError.
Proof.
  intros A j ind; unfold take; simpl; rewrite getitem_empty; reflexivity.
Qed.

(** The only exception of a lookup is IndexError, and what it returns is
    an element of the array. *)
Lemma getitem_cases : forall (A : Type) (a : list A) (j : Z),
  getitem a j = Raise IndexError \/ exists x, getitem a j = Ok x /\ In x a.
Proof.
  intros A a j; unfold getitem.
  destruct ((0 <=? (if (j <? 0)%Z then (j + Z.of_nat (length a))%Z else j))%Z &&
            ((if (j <? 0)%Z then (j + Z.of_nat (length a))%Z else j)
             <? Z.of_nat (length a))%Z); [| left; reflexivity].
  destruct (nth_error a _) as [x |] eqn:E; [| left; reflexivity].
  right; exists x; split; [reflexivity | eapply nth_error_In; exact E].
Qed.

Lemma getitem_length : forall (A : Type) (a : list A),
  getitem a (Z.of_nat (length a)) = Raise IndexError.
Proof.
  intros A a; unfold getitem.
  destruct (Z.ltb_spec (Z.of_nat (length a)) 0); [lia |].
  rewrite Z.ltb_irrefl, andb_false_r; reflexivity.
Qed.

Lemma take_elements : forall (A : Type) (a : list A) (ind : list Z) (out : list A),
  take a ind = Ok out -> Forall (fun x => In x a) out.
Proof.
  intros A a ind; unfold take; induction ind as [| j ind IH]; intros out H;
    cbn [mapM] in H.
  - injection H as <-; constructor.
  - apply bind_ok in H as (x & Hx & H).
    apply bind_ok in H as (xs & Hxs & H); injection H as <-.
    constructor; [| apply IH; exact Hxs].
    destruct (getitem_cases A a j) as [E | (y & E & Hy)]; congruence.
Qed.

Lemma take_raises : forall (A : Type) (a : list A) (ind : list Z),
  In (Z.of_nat (length a)) ind -> take a ind = Raise IndexError.
Proof.
  intros A a ind; unfold take; induction ind as [| j ind IH]; intros H;
    [contradiction |].
  cbn [mapM].
  destruct (getitem_cases A a j) as [E | (y & E & _)]; rewrite E; cbn [bind];
    [reflexivity |].
  destruct H as [-> | H]; [rewrite getitem_length in E; discriminate E |].
  rewrite (IH H); reflexivity.
Qed.

(** ** The reference scan meets the contract of the tree *)

Lemma scan_leaf_spec : forall (prefer_later : bool) (x : point)
    (rest seen : list point) (best : option (nat * float64)),
  scan_result_ok x seen best ->
  scan_result_ok x (seen ++ rest)
    (scan_leaf prefer_later x best (length seen) rest).
Proof.
  intros pl x rest; induction rest as [| c rest IH]; intros seen best Hinv.
  - simpl; rewrite app_nil_r; exact Hinv.
  - cbn [scan_leaf].
    assert (Happ : seen ++ c :: rest = (seen ++ [c]) ++ rest)
      by (rewrite <- app_assoc; reflexivity).
    assert (Hlen : S (length seen) = length (seen ++ [c]))
      by (rewrite length_app; simpl; lia).
    assert (Hc : nth_error (seen ++ [c]) (length seen) = Some c).
    { rewrite nth_error_app2 by lia.
      replace (length seen - length seen) with 0 by lia; reflexivity. }
    rewrite Happ, Hlen; apply IH.
    destruct best as [[j b] |]; cbn [scan_result_ok] in Hinv |- *.
    + destruct Hinv as (cj & Hj & -> & Hfin & Hmin).
      assert (Hjlt : j < length seen) by (apply nth_error_Some; congruence).
      assert (Hkeep : f64_ltb (sqdist x c) (sqdist x cj) = false ->
                      scan_result_ok x (seen ++ [c]) (Some (j, sqdist x cj))).
      { intros Hno; exists cj; split; [| split; [reflexivity | split; [exact Hfin |]]].
        - rewrite nth_error_app1 by exact Hjlt; exact Hj.
        - intros c' Hc'; apply in_app_or in Hc' as [Hc' | [<- | []]];
            [apply Hmin; exact Hc' | exact Hno]. }
      assert (Htake : f64_ltb (sqdist x c) f64_inf = true ->
                      f64_leb (sqdist x c) (sqdist x cj) = true ->
                      scan_result_ok x (seen ++ [c])
                        (Some (length seen, sqdist x c))).
      { intros Hcfin Hle; exists c; split; [exact Hc |].
        split; [reflexivity | split; [exact Hcfin |]].
        intros c' Hc'; apply in_app_or in Hc' as [Hc' | [<- | []]];
          [| apply f64_ltb_irrefl].
        destruct (f64_ltb (sqdist x c') (sqdist x c)) eqn:E; [| reflexivity].
        rewrite <- (Hmin c' Hc'); symmetry.
        apply (f64_ltb_leb_trans _ _ _ E Hle). }
      destruct pl.
      * destruct (f64_ltb (sqdist x c) f64_inf) eqn:Hcfin;
          destruct (f64_leb (sqdist x c) (sqdist x cj)) eqn:Hle; cbn [andb].
        -- apply Htake; reflexivity.
        -- apply Hkeep.
           destruct (f64_ltb (sqdist x c) (sqdist x cj)) eqn:E; [| reflexivity].
           rewrite (f64_ltb_leb _ _ E) in Hle; discriminate Hle.
        -- apply Hkeep.
           destruct (f64_ltb (sqdist x c) (sqdist x cj)) eqn:E; [| reflexivity].
           rewrite (f64_ltb_trans _ _ _ E Hfin) in Hcfin; discriminate Hcfin.
        -- apply Hkeep.
           destruct (f64_ltb (sqdist x c) (sqdist x cj)) eqn:E; [| reflexivity].
           rewrite (f64_ltb_leb _ _ E) in Hle; discriminate Hle.
      * destruct (f64_ltb (sqdist x c) (sqdist x cj)) eqn:E.
        -- apply Htake; [apply (f64_ltb_trans _ _ _ E Hfin) | apply f64_ltb_leb, E].
        -- apply Hkeep; reflexivity.
    + destruct (f64_ltb (sqdist x c) f64_inf) eqn:Hcfin.
      * exists c; split; [exact Hc | split; [reflexivity | split; [exact Hcfin |]]].
        intros c' Hc'; apply in_app_or in Hc' as [Hc' | [<- | []]];
          [| apply f64_ltb_irrefl].
        destruct (f64_ltb (sqdist x c') (sqdist x c)) eqn:E; [| reflexivity].
        rewrite <- (Hinv c' Hc'); symmetry.
        apply (f64_ltb_trans _ _ _ E Hcfin).
      * intros c' Hc'; apply in_app_or in Hc' as [Hc' | [<- | []]];
          [apply Hinv; exact Hc' | exact Hcfin].
Qed.

Lemma ref_query_with_contract : forall prefer_later : bool,
  kdtree_contract ref_cKDTree (ref_query_with prefer_later).
Proof.
  intros pl data xs _ _ _.
  exists data, (map (fun x =>
                       match scan_leaf pl x None 0 data with
                       | Some (j, _) => Z.of_nat j
                       | None => Z.of_nat (length data)
                       end) xs).
  split; [reflexivity | split; [reflexivity | split; [apply length_map |]]].
  intros i x j Hx Hj.
  rewrite nth_error_map, Hx in Hj; injection Hj as <-.
  pose proof (scan_leaf_spec pl x data [] None) as Hscan.
  cbn [app length] in Hscan.
  destruct (scan_leaf pl x None 0 data) as [[j d] |]; cbn [scan_result_ok] in Hscan.
  - destruct Hscan as (c & Hc & -> & Hfin & Hmin); [intros c' [] |].
    left; exists c; split; [lia | split; [rewrite Nat2Z.id; exact Hc |]].
    split; assumption.
  - right; split; [reflexivity |].
    apply Hscan; intros c' [].
Qed.

Lemma ref_kdtree_contract : kdtree_contract ref_cKDTree ref_query.
Proof. exact (ref_query_with_contract false). Qed.

(** ** The assignment of spots to nuclei *)

Section AssignmentProperties.

Variable kdtree : Type.
Variable cKDTree : list point -> result kdtree.
Variable query : kdtree -> list point -> result (list Z).

Hypothesis library : kdtree_contract cKDTree query.

Variable nucleus_label_values : list Z.
Variables nuclei_centroids spot_coords : list point.

Hypothesis some_nucleus : nuclei_centroids <> [].
Hypothesis finite_centroids : Forall finite_point nuclei_centroids.
Hypothesis finite_spots : Forall finite_point spot_coords.
Hypothesis aligned : length nucleus_label_values = length nuclei_centroids.

(** The indices that the query returns: one per spot, each the index of
    a nearest row or the number of rows. *)
Lemma nearest_nucleus_ind_spec :
  exists ind,
    nearest_nucleus_ind cKDTree query nuclei_centroids spot_coords = Ok ind /\
    length ind = length spot_coords /\
    forall i s j,
      nth_error spot_coords i = Some s ->
      nth_error ind i = Some j ->
      (exists c,
         (0 <= j < Z.of_nat (length nuclei_centroids))%Z /\
         nth_error nuclei_centroids (Z.to_nat j) = Some c /\
         f64_ltb (sqdist s c) f64_inf = true /\
         forall c', In c' nuclei_centroids ->
                    f64_ltb (sqdist s c') (sqdist s c) = false) \/
      (j = Z.of_nat (length nuclei_centroids) /\ ~ reachable nuclei_centroids s).
Proof.
  destruct (library nuclei_centroids spot_coords some_nucleus finite_centroids
              finite_spots) as (kdt & ind & Htree & Hquery & Hlen & Hnear).
  exists ind; split; [| split; [exact Hlen |]].
  - unfold nearest_nucleus_ind; rewrite Htree; simpl; rewrite Hquery; reflexivity.
  - intros i s j Hs Hj.
    destruct (Hnear i s j Hs Hj) as [(c & Hj0 & Hc & Hfin & Hmin) | [Hj0 Hnone]].
    + left; exists c; repeat split; try assumption; try lia.
      assert (Z.to_nat j < length nuclei_centroids)
        by (apply nth_error_Some; congruence).
      lia.
    + right; split; [exact Hj0 |].
      intros (c & Hin & Hfin); rewrite (Hnone c Hin) in Hfin; discriminate Hfin.
Qed.

(** When every spot is within reach, every index is inside the label
    array and the labels are read. *)
Lemma nearest_nucleus_label_spec :
  Forall (reachable nuclei_centroids) spot_coords ->
  exists ind out,
    nearest_nucleus_ind cKDTree query nuclei_centroids spot_coords = Ok ind /\
    nearest_nucleus_label cKDTree query nucleus_label_values nuclei_centroids
      spot_coords = Ok out /\
    length ind = length spot_coords /\
    length out = length spot_coords /\
    forall i s,
      nth_error spot_coords i = Some s ->
      exists j c l,
        nth_error ind i = Some j /\
        (0 <= j < Z.of_nat (length nuclei_centroids))%Z /\
        nth_error nuclei_centroids (Z.to_nat j) = Some c /\
        nth_error nucleus_label_values (Z.to_nat j) = Some l /\
        nth_error out i = Some l /\
        f64_ltb (sqdist s c) f64_inf = true /\
        forall c', In c' nuclei_centroids ->
                   f64_ltb (sqdist s c') (sqdist s c) = false.
Proof.
  intros Hreach; rewrite Forall_forall in Hreach.
  destruct nearest_nucleus_ind_spec as (ind & Hidx & Hind & Hnear).
  assert (Hget : forall i s j,
             nth_error spot_coords i = Some s -> nth_error ind i = Some j ->
             exists c l,
               (0 <= j < Z.of_nat (length nuclei_centroids))%Z /\
               nth_error nuclei_centroids (Z.to_nat j) = Some c /\
               nth_error nucleus_label_values (Z.to_nat j) = Some l /\
               getitem nucleus_label_values j = Ok l /\
               f64_ltb (sqdist s c) f64_inf = true /\
               forall c', In c' nuclei_centroids ->
                          f64_ltb (sqdist s c') (sqdist s c) = false).
  { intros i s j Hs Hj.
    destruct (Hnear i s j Hs Hj) as [(c & Hrange & Hc & Hfin & Hmin) | [_ Hno]];
      [| exfalso; apply Hno, Hreach; eapply nth_error_In; exact Hs].
    destruct (nth_error nucleus_label_values (Z.to_nat j)) as [l |] eqn:Hl;
      [| apply nth_error_None in Hl; lia].
    exists c, l; repeat split; try assumption; try lia.
    apply getitem_ok; [lia | exact Hl]. }
  assert (Htotal : returns (take nucleus_label_values ind)).
  { apply mapM_total; intros j Hj.
    apply In_nth_error in Hj as [i Hi].
    assert (Hi' : i < length spot_coords)
      by (rewrite <- Hind; apply nth_error_Some; congruence).
    destruct (nth_error spot_coords i) as [s |] eqn:Hs;
      [| apply nth_error_None in Hs; lia].
    destruct (Hget i s j Hs Hi) as (c & l & _ & _ & _ & Hl & _).
    exists l; exact Hl. }
  destruct Htotal as [out Hout].
  exists ind, out; split; [exact Hidx | split; [| split; [exact Hind | split]]].
  - unfold nearest_nucleus_label; rewrite Hidx; exact Hout.
  - rewrite (mapM_length _ _ _ _ _ Hout); exact Hind.
  - intros i s Hs.
    assert (Hi : i < length ind)
      by (rewrite Hind; apply nth_error_Some; congruence).
    destruct (nth_error ind i) as [j |] eqn:Hj;
      [| apply nth_error_None in Hj; lia].
    destruct (Hget i s j Hs Hj) as (c & l & Hrange & Hc & Hl & Hgetl & Hfin & Hmin).
    destruct (mapM_nth _ _ _ _ _ Hout i j Hj) as (l' & Hout_i & Hl').
    rewrite Hgetl in Hl'; injection Hl' as <-.
    exists j, c, l; repeat split; try assumption; lia.
Qed.

(** When some spot is out of reach of every centroid, the query reports
    the number of rows for it, and reading the label at that index
    raises IndexError. *)
Lemma nearest_nucleus_label_out_of_reach :
  Exists (fun s => ~ reachable nuclei_centroids s) spot_coords ->
  nearest_nucleus_label cKDTree query nucleus_label_values nuclei_centroids
    spot_coords = Raise IndexError.
Proof.
  intros Hex; apply Exists_exists in Hex as (s & Hin & Hno).
  destruct nearest_nucleus_ind_spec as (ind & Hidx & Hind & Hnear).
  unfold nearest_nucleus_label; rewrite Hidx; cbn [bind].
  apply take_raises.
  apply In_nth_error in Hin as [i Hs].
  assert (Hi : i < length ind)
    by (rewrite Hind; apply nth_error_Some; congruence).
  destruct (nth_error ind i) as [j |] eqn:Hj;
    [| apply nth_error_None in Hj; lia].
  destruct (Hnear i s j Hs Hj) as [(c & _ & Hc & Hfin & _) | [-> _]].
  - exfalso; apply Hno; exists c; split; [eapply nth_error_In; exact Hc | exact Hfin].
  - rewrite aligned; eapply nth_error_In; exact Hj.
Qed.

(** A spot with one nearest centroid is given the label at the position
    of that centroid. *)
Lemma nearest_nucleus_label_unique :
  forall out,
    nearest_nucleus_label cKDTree query nucleus_label_values nuclei_centroids
      spot_coords = Ok out ->
    length out = length spot_coords /\
    forall i s j c,
      nth_error spot_coords i = Some s ->
      nth_error nuclei_centroids j = Some c ->
      f64_ltb (sqdist s c) f64_inf = true ->
      (forall k c', k <> j -> nth_error nuclei_centroids k = Some c' ->
                    f64_ltb (sqdist s c) (sqdist s c') = true) ->
      nth_error out i = nth_error nucleus_label_values j.
Proof.
  intros out Hout.
  destruct nearest_nucleus_ind_spec as (ind & Hidx & Hind & Hnear).
  unfold nearest_nucleus_label in Hout; rewrite Hidx in Hout; cbn [bind] in Hout.
  split; [rewrite (mapM_length _ _ _ _ _ Hout); exact Hind |].
  intros i s j c Hs Hc Hfin Hcloser.
  assert (Hi : i < length ind)
    by (rewrite Hind; apply nth_error_Some; congruence).
  destruct (nth_error ind i) as [j0 |] eqn:Hj0;
    [| apply nth_error_None in Hj0; lia].
  destruct (mapM_nth _ _ _ _ _ Hout i j0 Hj0) as (l & Hout_i & Hl).
  destruct (Hnear i s j0 Hs Hj0) as [(c0 & Hrange & Hc0 & _ & Hmin) | [-> _]].
  - destruct (Nat.eq_dec (Z.to_nat j0) j) as [<- | Hdiff].
    + destruct (nth_error nucleus_label_values (Z.to_nat j0)) as [l0 |] eqn:Hl0;
        [| apply nth_error_None in Hl0; lia].
      rewrite (getitem_ok _ _ _ _ (proj1 Hrange) Hl0) in Hl; congruence.
    + exfalso.
      pose proof (Hcloser (Z.to_nat j0) c0 Hdiff Hc0) as Hlt.
      rewrite (Hmin c (nth_error_In _ _ Hc)) in Hlt; discriminate Hlt.
  - rewrite <- aligned, getitem_length in Hl; discriminate Hl.
Qed.

End AssignmentProperties.

Lemma sqdist_self : forall x : point,
  finite_point x -> sqdist x x = f64_zero.
Proof.
  intros [a b] [Ha Hb]; unfold sqdist; cbn [fst snd] in *.
  rewrite (f64_sub_diag a Ha), (f64_sub_diag b Hb); reflexivity.
Qed.

(** C1, as amended.  Over M >= 1 centroids with their labels, all
    coordinates being finite binary64 numbers: when every spot is within
    reach of a centroid (some squared distance, computed in binary64, is
    finite), every spot is given the label of a centroid whose computed
    squared distance no centroid is below.  In particular a spot whose
    computed squared distance to one centroid is strictly below that to
    every other is given the label of that centroid, and so is a spot that
    lies on a centroid, when the computed squared distance to every other
    centroid is above zero.  When some spot is out of reach of every
    centroid, the assignment raises IndexError. *)
Theorem nearest_nucleus_label_is_nearest :
  forall (kdtree : Type) (cKDTree : list point -> result kdtree)
         (query : kdtree -> list point -> result (list Z))
         (nucleus_label_values : list Z) (nuclei_centroids spot_coords : list point),
    kdtree_contract cKDTree query ->
    nuclei_centroids <> [] ->
    Forall finite_point nuclei_centroids ->
    Forall finite_point spot_coords ->
    length nucleus_label_values = length nuclei_centroids ->
    (Forall (reachable nuclei_centroids) spot_coords ->
     exists out,
       nearest_nucleus_label cKDTree query nucleus_label_values nuclei_centroids
         spot_coords = Ok out /\
       length out = length spot_coords /\
       forall i s,
         nth_error spot_coords i = Some s ->
         (exists j c l,
            nth_error nuclei_centroids j = Some c /\
            nth_error nucleus_label_values j = Some l /\
            nth_error out i = Some l /\
            f64_ltb (sqdist s c) f64_inf = true /\
            forall c', In c' nuclei_centroids ->
                       f64_ltb (sqdist s c') (sqdist s c) = false) /\
         (forall j c l,
            nth_error nuclei_centroids j = Some c ->
            nth_error nucleus_label_values j = Some l ->
            (forall k c', k <> j -> nth_error nuclei_centroids k = Some c' ->
                          f64_ltb (sqdist s c) (sqdist s c') = true) ->
            nth_error out i = Some l) /\
         (forall j c l,
            nth_error nuclei_centroids j = Some c ->
            nth_error nucleus_label_values j = Some l ->
            s = c ->
            (forall k c', k <> j -> nth_error nuclei_centroids k = Some c' ->
                          f64_ltb f64_zero (sqdist s c') = true) ->
            nth_error out i = Some l)) /\
    (Exists (fun s => ~ reachable nuclei_centroids s) spot_coords ->
     nearest_nucleus_label cKDTree query nucleus_label_values nuclei_centroids
       spot_coords = Raise IndexError).
Proof.
  intros kdtree cKDTree query labels cents spots Hlib Hne Hfc Hfs Hlen; split;
    [| apply (nearest_nucleus_label_out_of_reach kdtree cKDTree query Hlib labels
                cents spots Hne Hfc Hfs Hlen)].
  intros Hreach.
  destruct (nearest_nucleus_label_spec kdtree cKDTree query Hlib labels cents spots
              Hne Hfc Hfs Hlen Hreach)
    as (ind & out & _ & Hout & _ & Hlen_out & Hspec).
  destruct (nearest_nucleus_label_unique kdtree cKDTree query Hlib labels cents spots
              Hne Hfc Hfs Hlen out Hout) as [_ Huniq].
  exists out; split; [exact Hout | split; [exact Hlen_out |]].
  intros i s Hs.
  destruct (Hspec i s Hs) as (j & c & l & _ & _ & Hc & Hl & Hi & Hfin & Hmin).
  assert (Hstrict : forall j' c' l',
             nth_error cents j' = Some c' ->
             nth_error labels j' = Some l' ->
             (forall k ck, k <> j' -> nth_error cents k = Some ck ->
                           f64_ltb (sqdist s c') (sqdist s ck) = true) ->
             nth_error out i = Some l').
  { intros j' c' l' Hc' Hl' Hcloser.
    rewrite <- Hl'; apply (Huniq i s j' c' Hs Hc'); [| exact Hcloser].
    destruct (Nat.eq_dec (Z.to_nat j) j') as [<- | Hdiff]; [congruence |].
    apply (f64_ltb_trans _ _ _ (Hcloser (Z.to_nat j) c Hdiff Hc) Hfin). }
  split; [| split].
  - exists (Z.to_nat j), c, l; repeat split; assumption.
  - exact Hstrict.
  - intros j' c' l' Hc' Hl' -> Hapart.
    apply (Hstrict j' c' l' Hc' Hl').
    intros k ck Hk Hck.
    rewrite sqdist_self; [apply (Hapart k ck Hk Hck) |].
    rewrite Forall_forall in Hfs; apply Hfs; eapply nth_error_In; exact Hs.
Qed.

(** The example of the specification: centroids (0,0) with label 1 and
    (100,100) with label 2, spots at (1,1) and (99,99). *)
Lemma nearest_nucleus_label_is_nearest_witness :
  let labels := [1; 2]%Z in
  let centroids := [(f64_of_Z 0, f64_of_Z 0); (f64_of_Z 100, f64_of_Z 100)] in
  let spots := [(f64_of_Z 1, f64_of_Z 1); (f64_of_Z 99, f64_of_Z 99)] in
  exists out,
    nearest_nucleus_label ref_cKDTree ref_query labels centroids spots = Ok out /\
    length out = length spots /\
    forall i s,
      nth_error spots i = Some s ->
      (exists j c l,
         nth_error centroids j = Some c /\
         nth_error labels j = Some l /\
         nth_error out i = Some l /\
         f64_ltb (sqdist s c) f64_inf = true /\
         forall c', In c' centroids -> f64_ltb (sqdist s c') (sqdist s c) = false) /\
      (forall j c l,
         nth_error centroids j = Some c ->
         nth_error labels j = Some l ->
         (forall k c', k <> j -> nth_error centroids k = Some c' ->
                       f64_ltb (sqdist s c) (sqdist s c') = true) ->
         nth_error out i = Some l) /\
      (forall j c l,
         nth_error centroids j = Some c ->
         nth_error labels j = Some l ->
         s = c ->
         (forall k c', k <> j -> nth_error centroids k = Some c' ->
                       f64_ltb f64_zero (sqdist s c') = true) ->
         nth_error out i = Some l).
Proof.
  intros labels centroids spots.
  apply (proj1 (nearest_nucleus_label_is_nearest ref_kdtree ref_cKDTree ref_query
                  labels centroids spots ref_kdtree_contract
                  ltac:(discriminate)
                  ltac:(repeat constructor)
                  ltac:(repeat constructor)
                  eq_refl)).
  repeat constructor;
    (exists (f64_of_Z 0, f64_of_Z 0); split; [left; reflexivity | reflexivity]).
Defined.

Example voronoi_example :
  nearest_nucleus_label ref_cKDTree ref_query [1; 2]%Z
    [(f64_of_Z 0, f64_of_Z 0); (f64_of_Z 100, f64_of_Z 100)]
    [(f64_of_Z 1, f64_of_Z 1); (f64_of_Z 99, f64_of_Z 99)] = Ok [1; 2]%Z.
Proof. reflexivity. Qed.

(** C1, as it is stated, fails on the code: with the centroids
    (2^53, 1), labelled 1, and (2^53, 0), labelled 2, the spot (0, 0)
    is strictly closer to the second centroid, but the two squared
    distances computed in binary64 are the same number, 2^106, and the
    spot is given the label 1. *)
Lemma nearest_label_rounding_counterexample :
  let c1 := (f64_of_Z (2 ^ 53), f64_of_Z 1) in
  let c2 := (f64_of_Z (2 ^ 53), f64_of_Z 0) in
  let s := (f64_of_Z 0, f64_of_Z 0) in
  (exact_sqdist s c2 < exact_sqdist s c1)%Q /\
  sqdist s c1 = sqdist s c2 /\
  nearest_nucleus_label ref_cKDTree ref_query [1; 2]%Z [c1; c2] [s] = Ok [1%Z].
Proof. vm_compute; repeat split. Qed.

(** C6, as amended.  Over M >= 1 centroids, all coordinates being finite, the query
    gives one index per spot, in [0, M].  When every spot is within reach
    of a centroid every index is in [0, M) and the labels are read inside
    the label array; when a spot is out of reach the index M is among the
    indices and the assignment raises IndexError.  Over M = 0 centroids
    the notebook catches nothing: what the library raises is raised, and
    any index the query returns is outside the empty label array. *)
Theorem nearest_nucleus_label_in_bounds :
  forall (kdtree : Type) (cKDTree : list point -> result kdtree)
         (query : kdtree -> list point -> result (list Z)),
    kdtree_contract cKDTree query ->
    (forall (nucleus_label_values : list Z)
            (nuclei_centroids spot_coords : list point),
       nuclei_centroids <> [] ->
       Forall finite_point nuclei_centroids ->
       Forall finite_point spot_coords ->
       length nucleus_label_values = length nuclei_centroids ->
       exists ind,
         nearest_nucleus_ind cKDTree query nuclei_centroids spot_coords = Ok ind /\
         length ind = length spot_coords /\
         Forall (fun j => 0 <= j <= Z.of_nat (length nuclei_centroids))%Z ind /\
         (Forall (reachable nuclei_centroids) spot_coords ->
          Forall (fun j => 0 <= j < Z.of_nat (length nuclei_centroids))%Z ind /\
          exists out,
            nearest_nucleus_label cKDTree query nucleus_label_values
              nuclei_centroids spot_coords = Ok out /\
            length out = length spot_coords) /\
         (Exists (fun s => ~ reachable nuclei_centroids s) spot_coords ->
          In (Z.of_nat (length nuclei_centroids)) ind /\
          nearest_nucleus_label cKDTree query nucleus_label_values
            nuclei_centroids spot_coords = Raise IndexError)) /\
    (forall spot_coords : list point,
       match nearest_nucleus_ind cKDTree query [] spot_coords with
       | Raise e =>
           nearest_nucleus_label cKDTree query [] [] spot_coords = Raise e
       | Ok [] =>
           nearest_nucleus_label cKDTree query [] [] spot_coords = Ok []
       | Ok (_ :: _) =>
           nearest_nucleus_label cKDTree query [] [] spot_coords = Raise IndexError
       end).
Proof.
  intros kdtree cKDTree query Hlib; split.
  - intros labels cents spots Hne Hfc Hfs Hlen.
    destruct (nearest_nucleus_ind_spec kdtree cKDTree query Hlib labels cents spots
                Hne Hfc Hfs Hlen) as (ind & Hind & Hlen_ind & Hnear).
    assert (Hat : forall j, In j ind ->
                    exists i s, nth_error spots i = Some s /\ nth_error ind i = Some j).
    { intros j Hj; apply In_nth_error in Hj as [i Hi].
      assert (Hi' : i < length spots)
        by (rewrite <- Hlen_ind; apply nth_error_Some; congruence).
      destruct (nth_error spots i) as [s |] eqn:Hs;
        [| apply nth_error_None in Hs; lia].
      exists i, s; split; [exact Hs | exact Hi]. }
    exists ind; split; [exact Hind | split; [exact Hlen_ind | split; [| split]]].
    + apply Forall_forall; intros j Hj.
      destruct (Hat j Hj) as (i & s & Hs & Hi).
      destruct (Hnear i s j Hs Hi) as [(c & Hrange & _) | [-> _]]; lia.
    + intros Hreach; split.
      * apply Forall_forall; intros j Hj.
        destruct (Hat j Hj) as (i & s & Hs & Hi).
        destruct (Hnear i s j Hs Hi) as [(c & Hrange & _) | [_ Hno]];
          [exact Hrange |].
        exfalso; apply Hno.
        rewrite Forall_forall in Hreach; apply Hreach; eapply nth_error_In; exact Hs.
      * destruct (nearest_nucleus_label_spec kdtree cKDTree query Hlib labels cents
                    spots Hne Hfc Hfs Hlen Hreach)
          as (ind' & out & _ & Hout & _ & Hlen_out & _).
        exists out; split; assumption.
    + intros Hex; split;
        [| apply (nearest_nucleus_label_out_of_reach kdtree cKDTree query Hlib labels
                    cents spots Hne Hfc Hfs Hlen Hex)].
      apply Exists_exists in Hex as (s & Hin & Hno).
      apply In_nth_error in Hin as [i Hs].
      assert (Hi : i < length ind)
        by (rewrite Hlen_ind; apply nth_error_Some; congruence).
      destruct (nth_error ind i) as [j |] eqn:Hj;
        [| apply nth_error_None in Hj; lia].
      destruct (Hnear i s j Hs Hj) as [(c & _ & Hc & Hfin & _) | [-> _]];
        [| eapply nth_error_In; exact Hj].
      exfalso; apply Hno; exists c; split; [eapply nth_error_In; exact Hc | exact Hfin].
  - intros spots; unfold nearest_nucleus_label.
    destruct (nearest_nucleus_ind cKDTree query [] spots) as [[| j ind] | e];
      cbn [bind].
    + reflexivity.
    + apply take_empty.
    + reflexivity.
Qed.

(** Two centroids and two spots; then no centroid and one spot. *)
Lemma nearest_nucleus_label_in_bounds_witness :
  let labels := [1; 2]%Z in
  let centroids := [(f64_of_Z 0, f64_of_Z 0); (f64_of_Z 100, f64_of_Z 100)] in
  let spots := [(f64_of_Z 1, f64_of_Z 1); (f64_of_Z 99, f64_of_Z 99)] in
  (exists ind,
     nearest_nucleus_ind ref_cKDTree ref_query centroids spots = Ok ind /\
     length ind = length spots /\
     Forall (fun j => 0 <= j < Z.of_nat (length centroids))%Z ind /\
     exists out,
       nearest_nucleus_label ref_cKDTree ref_query labels centroids spots = Ok out /\
       length out = length spots) /\
  nearest_nucleus_label ref_cKDTree ref_query [] [] [(f64_of_Z 1, f64_of_Z 1)]
  = Raise IndexError.
Proof.
  intros labels centroids spots.
  destruct (nearest_nucleus_label_in_bounds ref_kdtree ref_cKDTree ref_query
              ref_kdtree_contract) as [Hsome Hnone].
  split.
  - destruct (Hsome labels centroids spots ltac:(discriminate)
                ltac:(repeat constructor) ltac:(repeat constructor) eq_refl)
      as (ind & Hind & Hlen & _ & Hreach & _).
    destruct Hreach as [Hrange Hout].
    + repeat constructor;
        (exists (f64_of_Z 0, f64_of_Z 0); split; [left; reflexivity | reflexivity]).
    + exists ind; repeat split; assumption.
  - exact (Hnone [(f64_of_Z 1, f64_of_Z 1)]).
Defined.

(** C6, as it is stated, fails on the code: with the single centroid
    (2^600, 0) the squared distance from the spot (0, 0) overflows to
    infinity, the spot is out of reach, and the assignment raises
    IndexError although M = 1. *)
Lemma nearest_label_overflow_counterexample :
  let c := (f64_of_Z (2 ^ 600), f64_of_Z 0) in
  let s := (f64_of_Z 0, f64_of_Z 0) in
  finite_point c /\ finite_point s /\
  sqdist s c = f64_inf /\
  nearest_nucleus_ind ref_cKDTree ref_query [c] [s] = Ok [1%Z] /\
  nearest_nucleus_label ref_cKDTree ref_query [7%Z] [c] [s] = Raise IndexError.
Proof. vm_compute; repeat split. Qed.

(** Without centroids, a single spot is enough for the assignment to
    fail. *)
Example no_nucleus_example :
  nearest_nucleus_label ref_cKDTree ref_query [] [] [(f64_of_Z 1, f64_of_Z 1)]
  = Raise IndexError.
Proof. reflexivity. Qed.

(** ** The reference region table meets the contract of the table *)

Lemma has_label_occurs : forall (img : label_image) (l : Z),
  has_label img l = true <-> occurs l img.
Proof.
  intros img l; unfold has_label, occurs; rewrite existsb_exists.
  split; intros (row & Hrow & H); exists row; split; try exact Hrow.
  - apply existsb_exists in H as (x & Hx & E).
    apply Z.eqb_eq in E; subst x; exact Hx.
  - apply existsb_exists; exists l; split; [exact H | apply Z.eqb_refl].
Qed.

Lemma fold_max_ge : forall (xs : list Z) (l : Z),
  In l xs -> (l <= fold_right Z.max 0 xs)%Z.
Proof.
  intros xs l; induction xs as [| x xs IH]; intros H; [contradiction |].
  simpl; destruct H as [-> | H]; [lia | specialize (IH H); lia].
Qed.

Lemma occurs_max_label : forall (img : label_image) (l : Z),
  occurs l img -> (l <= max_label img)%Z.
Proof.
  intros img l (row & Hrow & Hl); apply fold_max_ge.
  apply in_concat; exists row; split; assumption.
Qed.

Lemma ref_regionprops_contract : regionprops_contract ref_regionprops_table.
Proof.
  intros img _; eexists; split; [reflexivity |]; simpl.
  rewrite !length_map; split; [reflexivity | split; [reflexivity |]].
  intros l; rewrite filter_In, has_label_occurs, in_map_iff; split.
  - intros [(k & <- & Hk) Hocc]; apply in_seq in Hk; split; [lia | exact Hocc].
  - intros [Hpos Hocc]; split; [| exact Hocc].
    pose proof (occurs_max_label img l Hocc) as Hmax.
    exists (Z.to_nat l); split; [lia |].
    apply in_seq; lia.
Qed.

(** ** The labels that spots are given *)

(** C9.  When the label image has a nucleus, every label that the cells
    of the assignment give to a spot, whenever they return, is a positive
    value of the label image: the background 0 is given to no spot.  And
    they do return, one label per spot, when the centroids of the table
    and the spots are finite and every spot is within reach of a
    centroid. *)
Theorem assigned_labels_are_nuclei :
  forall (kdtree : Type) (cKDTree : list point -> result kdtree)
         (query : kdtree -> list point -> result (list Z))
         (regionprops_table : label_image -> result rp_table_t)
         (nuclei_labels : label_image) (spot_coords : list point),
    regionprops_contract regionprops_table ->
    (exists l, (0 < l)%Z /\ occurs l nuclei_labels) ->
    (forall out,
       assign_spots cKDTree query regionprops_table nuclei_labels spot_coords = Ok out ->
       Forall (fun l => (0 < l)%Z /\ occurs l nuclei_labels) out /\
       ~ In 0%Z out) /\
    (kdtree_contract cKDTree query ->
     exists rp_table nuclei_centroids,
       regionprops_table nuclei_labels = Ok rp_table /\
       column_stack (rp_centroid_0 rp_table) (rp_centroid_1 rp_table)
       = Ok nuclei_centroids /\
       nuclei_centroids <> [] /\
       (Forall finite_point nuclei_centroids ->
        Forall finite_point spot_coords ->
        Forall (reachable nuclei_centroids) spot_coords ->
        exists out,
          assign_spots cKDTree query regionprops_table nuclei_labels spot_coords
          = Ok out /\
          length out = length spot_coords)).
Proof.
  intros kdtree cKDTree query regionprops_table img spots Hrp Hnucleus.
  destruct (Hrp img Hnucleus) as (rp & Htable & Hlen0 & Hlen1 & Hlabels).
  assert (Hstack : column_stack (rp_centroid_0 rp) (rp_centroid_1 rp)
                   = Ok (combine (rp_centroid_0 rp) (rp_centroid_1 rp))).
  { unfold column_stack; rewrite Hlen0, Hlen1, Nat.eqb_refl; reflexivity. }
  split.
  - intros out Hout.
    unfold assign_spots in Hout; rewrite Htable in Hout; cbn [bind] in Hout.
    rewrite Hstack in Hout; cbn [bind] in Hout.
    unfold nearest_nucleus_label in Hout.
    destruct (nearest_nucleus_ind cKDTree query
                (combine (rp_centroid_0 rp) (rp_centroid_1 rp)) spots)
      as [ind | e]; [| discriminate].
    cbn [bind] in Hout.
    pose proof (take_elements _ _ _ _ Hout) as Hin.
    assert (Hall : Forall (fun l => (0 < l)%Z /\ occurs l img) out).
    { apply Forall_forall; intros l Hl.
      rewrite Forall_forall in Hin; apply Hlabels, Hin, Hl. }
    split; [exact Hall |].
    intros H0; rewrite Forall_forall in Hall.
    destruct (Hall 0%Z H0) as [Hpos _]; lia.
  - intros Hkd.
    assert (Hlen : length (rp_label rp)
                   = length (combine (rp_centroid_0 rp) (rp_centroid_1 rp))).
    { rewrite length_combine, Hlen0, Hlen1; lia. }
    assert (Hne : combine (rp_centroid_0 rp) (rp_centroid_1 rp) <> []).
    { destruct Hnucleus as (l & Hl).
      apply Hlabels in Hl.
      intros E; rewrite E in Hlen; simpl in Hlen.
      destruct (rp_label rp); [contradiction | discriminate]. }
    exists rp, (combine (rp_centroid_0 rp) (rp_centroid_1 rp)).
    split; [exact Htable | split; [exact Hstack | split; [exact Hne |]]].
    intros Hfc Hfs Hreach.
    destruct (nearest_nucleus_label_spec kdtree cKDTree query Hkd (rp_label rp) _ spots
                Hne Hfc Hfs Hlen Hreach)
      as (ind & out & _ & Hout & _ & Hlen_out & _).
    exists out; split; [| exact Hlen_out].
    unfold assign_spots; rewrite Htable; cbn [bind]; rewrite Hstack; cbn [bind].
    exact Hout.
Qed.

(** A label image with the nuclei 1 and 3, and two spots. *)
Lemma assigned_labels_are_nuclei_witness :
  let nuclei_labels := [[0; 1; 1]; [0; 0; 3]; [3; 3; 0]]%Z in
  let spots := [(f64_of_Z 0, f64_of_Z 0); (f64_of_Z 2, f64_of_Z 2)] in
  exists out,
    assign_spots ref_cKDTree ref_query ref_regionprops_table nuclei_labels spots
    = Ok out /\
    length out = length spots /\
    Forall (fun l => (0 < l)%Z /\ occurs l nuclei_labels) out /\
    ~ In 0%Z out.
Proof.
  intros nuclei_labels spots.
  assert (E : assign_spots ref_cKDTree ref_query ref_regionprops_table
                nuclei_labels spots = Ok [1; 3]%Z) by reflexivity.
  exists [1; 3]%Z; split; [exact E | split; [reflexivity |]].
  apply (proj1 (assigned_labels_are_nuclei ref_kdtree ref_cKDTree ref_query
                  ref_regionprops_table nuclei_labels spots
                  ref_regionprops_contract
                  (ex_intro _ 1%Z
                     (conj eq_refl
                        (ex_intro _ [0; 1; 1]%Z
                           (conj (or_introl eq_refl) (or_intror (or_introl eq_refl))))))));
    exact E.
Defined.

Example assign_spots_example :
  assign_spots ref_cKDTree ref_query ref_regionprops_table
    [[0; 1; 1]; [0; 0; 3]; [3; 3; 0]]%Z
    [(f64_of_Z 0, f64_of_Z 0); (f64_of_Z 2, f64_of_Z 2)] = Ok [1; 3]%Z.
Proof. reflexivity. Qed.

(** ** The colour cycle *)

Lemma filter_and : forall (A : Type) (p q : A -> bool) (l : list A),
  filter q (filter p l) = filter (fun x => p x && q x) l.
Proof.
  intros A p q l; induction l as [| a l IH]; simpl; [reflexivity |].
  destruct (p a); simpl; [destruct (q a); simpl; congruence | exact IH].
Qed.

Lemma filter_comm : forall (A : Type) (p q : A -> bool) (l : list A),
  filter q (filter p l) = filter p (filter q l).
Proof.
  intros A p q l; rewrite !filter_and; apply filter_ext.
  intros a; apply andb_comm.
Qed.

(** Dropping labels before or after the removal of the copies is the same. *)
Lemma distinct_labels_filter : forall (q : Z -> bool) (labels : list Z),
  filter q (distinct_labels labels) = distinct_labels (filter q labels).
Proof.
  intros q labels; induction labels as [| a labels IH]; [reflexivity |].
  cbn [distinct_labels filter].
  destruct (q a) eqn:Ha.
  - cbn [distinct_labels]; f_equal.
    rewrite <- IH; apply filter_comm.
  - rewrite <- IH, filter_and; apply filter_ext.
    intros x; destruct (Z.eqb_spec x a) as [-> | _]; simpl;
      [symmetry; exact Ha | reflexivity].
Qed.

Lemma distinct_labels_NoDup : forall labels : list Z, NoDup (distinct_labels labels).
Proof.
  intros labels; induction labels as [| a labels IH]; simpl; constructor.
  - rewrite filter_In, Z.eqb_refl; intros [_ H]; discriminate H.
  - apply NoDup_filter; exact IH.
Qed.

Lemma lookup_none : forall (l : Z) (m : colormap),
  lookup l m = None -> existsb (Z.eqb l) (map fst m) = false.
Proof.
  intros l m; induction m as [| [k c] m IH]; simpl; [reflexivity |].
  rewrite (Z.eqb_sym l k).
  destruct (Z.eqb k l); [discriminate | exact IH].
Qed.

Lemma lookup_some : forall (l : Z) (m : colormap) (c : rgba),
  lookup l m = Some c -> existsb (Z.eqb l) (map fst m) = true.
Proof.
  intros l m c; induction m as [| [k c0] m IH]; simpl; [discriminate |].
  rewrite (Z.eqb_sym l k).
  destruct (Z.eqb k l); [reflexivity | exact IH].
Qed.

Lemma lookup_position : forall (l : Z) (m : colormap) (c : rgba),
  lookup l m = Some c -> exists k, nth_error m k = Some (l, c).
Proof.
  intros l m c; induction m as [| [k0 c0] m IH]; simpl; [discriminate |].
  destruct (Z.eqb_spec k0 l) as [-> | _].
  - intros H; injection H as <-; exists 0; reflexivity.
  - intros H; destruct (IH H) as [k Hk]; exists (S k); exact Hk.
Qed.

Lemma lookup_nth : forall (m : colormap) (k : nat) (l : Z) (c : rgba),
  NoDup (map fst m) -> nth_error m k = Some (l, c) -> lookup l m = Some c.
Proof.
  intros m; induction m as [| [k0 c0] m IH]; intros k l c Hnd Hk.
  - destruct k; discriminate Hk.
  - inversion Hnd as [| ? ? Hnotin Hnd']; subst.
    destruct k as [| k]; simpl in *.
    + injection Hk as -> ->; rewrite Z.eqb_refl; reflexivity.
    + destruct (Z.eqb_spec k0 l) as [-> | _].
      * exfalso; apply Hnotin.
        apply nth_error_In in Hk.
        apply (in_map fst) in Hk; exact Hk.
      * eapply IH; eassumption.
Qed.

Lemma cycle_next_ok : forall (palette : list rgba) (n : nat),
  palette <> [] ->
  exists c, cycle_next palette n = Ok c /\
            nth_error palette (n mod length palette) = Some c.
Proof.
  intros palette n Hne; unfold cycle_next.
  assert (Hlt : n mod length palette < length palette).
  { apply Nat.mod_upper_bound; destruct palette; [congruence | discriminate]. }
  destruct (nth_error palette (n mod length palette)) as [c |] eqn:E.
  - exists c; split; reflexivity.
  - apply nth_error_None in E; lia.
Qed.

(** The colormap grows at its end, by the labels that are new, in the
    order of their first appearance, and the entry at position [k] has
    the colour at position [k mod length palette] of the palette. *)
Lemma map_labels_spec : forall (palette : list rgba) (labels : list Z) (m : colormap),
  palette <> [] ->
  exists tail,
    map_labels palette m (length m) labels = Ok (m ++ tail) /\
    map fst tail
    = distinct_labels
        (filter (fun l => negb (existsb (Z.eqb l) (map fst m))) labels) /\
    forall k l c,
      nth_error tail k = Some (l, c) ->
      nth_error palette ((length m + k) mod length palette) = Some c.
Proof.
  intros palette labels; induction labels as [| l labels IH]; intros m Hne.
  - exists []; simpl; rewrite app_nil_r; repeat split.
    intros [| k] l c H; discriminate H.
  - cbn [map_labels filter].
    destruct (lookup l m) as [c0 |] eqn:Hl.
    + rewrite (lookup_some l m c0 Hl); cbn [negb].
      apply IH; exact Hne.
    + rewrite (lookup_none l m Hl); cbn [negb distinct_labels].
      destruct (cycle_next_ok palette (length m) Hne) as (c & -> & Hc).
      cbn [bind].
      destruct (IH (m ++ [(l, c)]) Hne) as (tail & Hrun & Hkeys & Hcolors).
      rewrite length_app in Hrun, Hcolors; cbn [length] in Hrun, Hcolors.
      replace (length m + 1) with (S (length m)) in Hrun by lia.
      exists ((l, c) :: tail); split; [| split].
      * rewrite Hrun, <- app_assoc; reflexivity.
      * cbn [map fst]; f_equal.
        rewrite Hkeys, distinct_labels_filter, filter_and.
        f_equal; apply filter_ext; intros x.
        rewrite map_app, existsb_app; cbn [map fst existsb].
        rewrite orb_false_r, negb_orb; reflexivity.
      * intros [| k] l' c' Hk.
        -- injection Hk as <- <-; rewrite Nat.add_0_r; exact Hc.
        -- replace (length m + S k) with (length m + 1 + k) by lia.
           apply (Hcolors k l' c'); exact Hk.
Qed.

(** The ten colours of the cycle differ from one another. *)
Lemma color_cycle_distinct : forall (k k' : nat) (c c' : rgba),
  k <> k' ->
  nth_error color_cycle k = Some c ->
  nth_error color_cycle k' = Some c' ->
  rgba_eqb c c' = false.
Proof.
  assert (Hall : forallb (fun k =>
                   forallb (fun k' =>
                     Nat.eqb k k' ||
                     match nth_error color_cycle k, nth_error color_cycle k' with
                     | Some c, Some c' => negb (rgba_eqb c c')
                     | _, _ => false
                     end) (seq 0 10)) (seq 0 10) = true)
    by (vm_compute; reflexivity).
  intros k k' c c' Hk Hc Hc'.
  assert (Hlt : k < length color_cycle) by (apply nth_error_Some; congruence).
  assert (Hlt' : k' < length color_cycle) by (apply nth_error_Some; congruence).
  cbn [length color_cycle] in Hlt, Hlt'.
  rewrite forallb_forall in Hall.
  specialize (Hall k); rewrite forallb_forall in Hall.
  assert (H := Hall ltac:(apply in_seq; lia) k' ltac:(apply in_seq; lia)).
  rewrite Hc, Hc' in H.
  destruct (Nat.eqb_spec k k'); [contradiction |].
  simpl in H; destruct (rgba_eqb c c'); [discriminate H | reflexivity].
Qed.

(** C8.  The colormap gives the [k]-th distinct label, in the order of
    first appearance, the colour at position [k mod 10] of the palette of
    ten colours.  With at most ten distinct labels, different labels have
    different colours; with more, the labels at positions [k] and
    [k + 10] have the same colour. *)
Theorem color_cycle_mapping :
  forall labels : list Z,
    exists cmap,
      categorical_colormap color_cycle labels = Ok cmap /\
      map fst cmap = distinct_labels labels /\
      (forall k l,
         nth_error (distinct_labels labels) k = Some l ->
         exists c,
           lookup l cmap = Some c /\
           nth_error color_cycle (k mod 10) = Some c) /\
      (length (distinct_labels labels) <= 10 ->
       forall l l' c c',
         l <> l' ->
         lookup l cmap = Some c ->
         lookup l' cmap = Some c' ->
         rgba_eqb c c' = false) /\
      (forall k l l',
         nth_error (distinct_labels labels) k = Some l ->
         nth_error (distinct_labels labels) (k + 10) = Some l' ->
         l <> l' /\ lookup l cmap = lookup l' cmap).
Proof.
  intros labels.
  destruct (map_labels_spec color_cycle labels []) as (cmap & Hrun & Hkeys & Hcolors);
    [discriminate |].
  cbn [app length map existsb negb Nat.add] in Hrun, Hkeys, Hcolors.
  rewrite filter_true in Hkeys.
  change (length color_cycle) with 10 in Hcolors.
  assert (Hnd : NoDup (map fst cmap))
    by (rewrite Hkeys; apply distinct_labels_NoDup).
  assert (Hentry : forall k l,
             nth_error (distinct_labels labels) k = Some l ->
             exists c,
               nth_error cmap k = Some (l, c) /\
               lookup l cmap = Some c /\
               nth_error color_cycle (k mod 10) = Some c).
  { intros k l Hk.
    rewrite <- Hkeys, nth_error_map in Hk.
    destruct (nth_error cmap k) as [[l0 c] |] eqn:E; [| discriminate Hk].
    injection Hk as ->.
    exists c; split; [reflexivity | split].
    - eapply lookup_nth; eassumption.
    - eapply Hcolors; exact E. }
  assert (Hpos : forall l c,
             lookup l cmap = Some c ->
             exists k,
               nth_error (distinct_labels labels) k = Some l /\
               nth_error color_cycle (k mod 10) = Some c).
  { intros l c Hl.
    destruct (lookup_position l cmap c Hl) as [k Hk].
    exists k; split.
    - rewrite <- Hkeys, nth_error_map, Hk; reflexivity.
    - eapply Hcolors; exact Hk. }
  exists cmap; split; [exact Hrun | split; [exact Hkeys | split; [| split]]].
  - intros k l Hk.
    destruct (Hentry k l Hk) as (c & _ & Hl & Hc).
    exists c; split; assumption.
  - intros Hten l l' c c' Hdiff Hl Hl'.
    destruct (Hpos l c Hl) as (k & Hk & Hc).
    destruct (Hpos l' c' Hl') as (k' & Hk' & Hc').
    assert (Hlt : k < 10)
      by (apply Nat.lt_le_trans with (length (distinct_labels labels));
          [apply nth_error_Some; congruence | exact Hten]).
    assert (Hlt' : k' < 10)
      by (apply Nat.lt_le_trans with (length (distinct_labels labels));
          [apply nth_error_Some; congruence | exact Hten]).
    rewrite Nat.mod_small in Hc, Hc' by assumption.
    apply (color_cycle_distinct k k' c c'); try assumption.
    intros ->; congruence.
  - intros k l l' Hk Hk'; split.
    + intros ->.
      pose proof (distinct_labels_NoDup labels) as Hd.
      rewrite NoDup_nth_error in Hd.
      assert (k = k + 10); [| lia].
      apply Hd; [apply nth_error_Some; congruence | congruence].
    + destruct (Hentry k l Hk) as (c & _ & Hl & Hc).
      destruct (Hentry (k + 10) l' Hk') as (c' & _ & Hl' & Hc').
      replace ((k + 10) mod 10) with (k mod 10) in Hc'
        by (symmetry; apply (Nat.Div0.mod_add k 1 10)).
      congruence.
Qed.

(** Twelve nuclei, some met several times: the eleventh and the twelfth
    distinct labels, 21 and 22, have the colours of the first two, 7
    and 4. *)
Example color_cycle_example :
  exists cmap,
    categorical_colormap color_cycle
      [7; 4; 7; 9; 1; 4; 12; 15; 3; 8; 6; 2; 9; 21; 22; 21]%Z = Ok cmap /\
    map fst cmap = [7; 4; 9; 1; 12; 15; 3; 8; 6; 2; 21; 22]%Z /\
    lookup 21%Z cmap = lookup 7%Z cmap /\
    lookup 22%Z cmap = lookup 4%Z cmap /\
    lookup 7%Z cmap = nth_error color_cycle 0 /\
    lookup 2%Z cmap = nth_error color_cycle 9.
Proof. eexists; split; [reflexivity | repeat split]. Qed.

(** * Further properties of the notebook's code *)

(** ** The high-pass filter, element by element *)

Lemma nth_error_zip_with : forall (A B C : Type) (f : A -> B -> C)
    (l : list A) (m : list B) (i : nat) (a : A) (b : B),
  nth_error l i = Some a -> nth_error m i = Some b ->
  nth_error (zip_with f l m) i = Some (f a b).
Proof.
  intros A B C f l; induction l as [| a0 l IH]; intros m i a b Ha Hb.
  - destruct i; discriminate Ha.
  - destruct m as [| b0 m]; [destruct i; discriminate Hb |].
    destruct i as [| i]; simpl in *.
    + injection Ha as ->; injection Hb as ->; reflexivity.
    + apply IH; assumption.
Qed.

Lemma well_formed_nth : forall (dt : dtype) (a : ndarray dt) (i : nat) (x : pix dt),
  well_formed a -> nth_error (data a) i = Some x -> pix_valid dt x.
Proof.
  intros dt a i x [_ Hv] Hi.
  rewrite Forall_forall in Hv; apply Hv; eapply nth_error_In; exact Hi.
Qed.

Lemma zip_sub_valid : forall (dt : dtype) (l m : list (pix dt)),
  is_integer dt = true -> Forall (pix_valid dt) (zip_with (pix_sub dt) l m).
Proof.
  intros dt l; induction l as [| a l IH]; intros [| b m] Hint;
    cbn [zip_with]; try constructor; try (apply IH; exact Hint).
  destruct dt as [w | w |]; [| | discriminate Hint]; unfold pix_valid, pix_sub.
  - unfold wrap_unsigned; apply Z.mod_pos_bound, Z.pow_pos_nonneg; lia.
  - unfold wrap_signed.
    assert (Hm : (2 ^ Zpos w = 2 * 2 ^ (Zpos w - 1))%Z).
    { rewrite <- Z.pow_succ_r by lia; f_equal; lia. }
    assert (Hh : (0 < 2 ^ (Zpos w - 1))%Z) by (apply Z.pow_pos_nonneg; lia).
    pose proof (Z.mod_pos_bound (a - b + 2 ^ (Zpos w - 1)) (2 ^ Zpos w)) as Hb.
    lia.
Qed.

(** X1.  The high-pass image of an image of unsigned integers is again
    an array of unsigned integers of that width: no element of it is
    negative.  Where the image is below its blurred version the
    difference wraps around, to [x - y + 2^w]. *)
Theorem gaussian_high_pass_unsigned_wraps :
  forall (gf : gaussian_filter_t) (w : positive)
         (image low_pass : ndarray (UInt w)) (sigma : float64),
    gaussian_filter_contract gf ->
    well_formed image ->
    gf (UInt w) image sigma = Ok low_pass ->
    exists high_passed_im,
      gaussian_high_pass gf image sigma = Ok high_passed_im /\
      well_formed high_passed_im /\
      forall i x y,
        nth_error (data image) i = Some x ->
        nth_error (data low_pass) i = Some y ->
        nth_error (data high_passed_im) i
        = Some (if (y <=? x)%Z then (x - y)%Z else (x - y + 2 ^ Zpos w)%Z).
Proof.
  intros gf w image low_pass sigma Hc Hwf Hgf.
  destruct (Hc (UInt w) image low_pass sigma Hwf Hgf) as [Hs Hlp].
  pose proof (well_formed_same_length (UInt w) image low_pass Hwf Hlp Hs) as Hlen.
  eexists; split; [apply gaussian_high_pass_ok; eassumption |].
  split; [split |]; cbn [shape data].
  - rewrite zip_with_length by exact Hlen; exact (proj1 Hwf).
  - apply zip_sub_valid; reflexivity.
  - intros i x y Hx Hy.
    rewrite (nth_error_zip_with _ _ _ _ _ _ _ _ _ Hx Hy); f_equal.
    pose proof (well_formed_nth (UInt w) image i x Hwf Hx) as Hxv.
    pose proof (well_formed_nth (UInt w) low_pass i y Hlp Hy) as Hyv.
    unfold pix_valid in Hxv, Hyv; unfold pix_sub, wrap_unsigned.
    destruct (Z.leb_spec y x).
    + apply Z.mod_small; lia.
    + rewrite <- (Z.mod_small (x - y + 2 ^ Zpos w) (2 ^ Zpos w)) by lia.
      rewrite <- (Z_mod_plus_full (x - y) 1 (2 ^ Zpos w)).
      f_equal; lia.
Qed.

(** The image of the first witness: 10 - 70 becomes 65476. *)
Lemma gaussian_high_pass_unsigned_wraps_witness :
  let image := mk_ndarray (dt := UInt 16) [2; 2] [10; 200; 30; 40]%Z in
  let low_pass := mk_ndarray (dt := UInt 16) [2; 2] [70; 70; 70; 70]%Z in
  exists high_passed_im,
    gaussian_high_pass ref_gaussian_filter image (f64_of_Z 2) = Ok high_passed_im /\
    well_formed high_passed_im /\
    forall i x y,
      nth_error (data image) i = Some x ->
      nth_error (data low_pass) i = Some y ->
      nth_error (data high_passed_im) i
      = Some (if (y <=? x)%Z then (x - y)%Z else (x - y + 2 ^ 16)%Z).
Proof.
  intros image low_pass.
  apply (gaussian_high_pass_unsigned_wraps ref_gaussian_filter 16 image low_pass
           (f64_of_Z 2)).
  - exact ref_gaussian_filter_contract.
  - split; [reflexivity | repeat constructor; simpl; lia].
  - reflexivity.
Defined.

(** X2.  On an image of signed integers the high-pass value is the true
    difference wherever that difference fits the dtype; in particular
    wherever the image and its blurred version are not negative. *)
Theorem gaussian_high_pass_signed_exact :
  forall (gf : gaussian_filter_t) (w : positive)
         (image low_pass : ndarray (SInt w)) (sigma : float64),
    gaussian_filter_contract gf ->
    well_formed image ->
    gf (SInt w) image sigma = Ok low_pass ->
    exists high_passed_im,
      gaussian_high_pass gf image sigma = Ok high_passed_im /\
      well_formed high_passed_im /\
      forall i x y,
        nth_error (data image) i = Some x ->
        nth_error (data low_pass) i = Some y ->
        ((- 2 ^ (Zpos w - 1) <= x - y < 2 ^ (Zpos w - 1))%Z ->
         nth_error (data high_passed_im) i = Some (x - y)%Z) /\
        ((0 <= x)%Z -> (0 <= y)%Z ->
         nth_error (data high_passed_im) i = Some (x - y)%Z).
Proof.
  intros gf w image low_pass sigma Hc Hwf Hgf.
  destruct (Hc (SInt w) image low_pass sigma Hwf Hgf) as [Hs Hlp].
  pose proof (well_formed_same_length (SInt w) image low_pass Hwf Hlp Hs) as Hlen.
  eexists; split; [apply gaussian_high_pass_ok; eassumption |].
  split; [split |]; cbn [shape data].
  - rewrite zip_with_length by exact Hlen; exact (proj1 Hwf).
  - apply zip_sub_valid; reflexivity.
  - intros i x y Hx Hy.
    rewrite (nth_error_zip_with _ _ _ _ _ _ _ _ _ Hx Hy).
    pose proof (well_formed_nth (SInt w) image i x Hwf Hx) as Hxv.
    pose proof (well_formed_nth (SInt w) low_pass i y Hlp Hy) as Hyv.
    unfold pix_valid in Hxv, Hyv; unfold pix_sub, wrap_signed.
    assert (Hm : (2 ^ Zpos w = 2 * 2 ^ (Zpos w - 1))%Z).
    { rewrite <- Z.pow_succ_r by lia; f_equal; lia. }
    assert (Hfit : (- 2 ^ (Zpos w - 1) <= x - y < 2 ^ (Zpos w - 1))%Z ->
                   Some ((x - y + 2 ^ (Zpos w - 1)) mod 2 ^ Zpos w
                         - 2 ^ (Zpos w - 1))%Z = Some (x - y)%Z).
    { intros H; f_equal; rewrite Z.mod_small by lia; lia. }
    split; [exact Hfit |].
    intros Hx0 Hy0; apply Hfit; lia.
Qed.

Lemma gaussian_high_pass_signed_exact_witness :
  let image := mk_ndarray (dt := SInt 16) [2; 2] [10; 200; 30; 40]%Z in
  let low_pass := mk_ndarray (dt := SInt 16) [2; 2] [70; 70; 70; 70]%Z in
  exists high_passed_im,
    gaussian_high_pass ref_gaussian_filter image (f64_of_Z 2) = Ok high_passed_im /\
    well_formed high_passed_im /\
    forall i x y,
      nth_error (data image) i = Some x ->
      nth_error (data low_pass) i = Some y ->
      ((- 2 ^ (16 - 1) <= x - y < 2 ^ (16 - 1))%Z ->
       nth_error (data high_passed_im) i = Some (x - y)%Z) /\
      ((0 <= x)%Z -> (0 <= y)%Z ->
       nth_error (data high_passed_im) i = Some (x - y)%Z).
Proof.
  intros image low_pass.
  apply (gaussian_high_pass_signed_exact ref_gaussian_filter 16 image low_pass
           (f64_of_Z 2)).
  - exact ref_gaussian_filter_contract.
  - split; [reflexivity | repeat constructor; simpl; lia].
  - reflexivity.
Defined.
Lemma pix_sub_zero_iff : forall (dt : dtype) (x y : pix dt),
  is_integer dt = true -> pix_valid dt x -> pix_valid dt y ->
  (pix_sub dt x y = pix_zero dt <-> x = y).
Proof.
  intros [w | w |] x y Hint Hx Hy; [| | discriminate Hint];
    unfold pix_valid, pix_sub, pix_zero in *.
  - unfold wrap_unsigned.
    set (m := (2 ^ Zpos w)%Z) in *.
    assert (Hpos : (0 < m)%Z) by (apply Z.pow_pos_nonneg; lia).
    split.
    + intros H.
      pose proof (Z.div_mod (x - y) m ltac:(lia)) as Hdiv.
      rewrite H in Hdiv.
      set (q := ((x - y) / m)%Z) in *.
      assert (Hq : (-1 < q < 1)%Z) by nia.
      nia.
    + intros ->; rewrite Z.sub_diag; apply Z.mod_0_l; lia.
  - unfold wrap_signed.
    assert (Hm : (2 ^ Zpos w = 2 * 2 ^ (Zpos w - 1))%Z).
    { rewrite <- Z.pow_succ_r by lia; f_equal; lia. }
    set (h := (2 ^ (Zpos w - 1))%Z) in *.
    set (m := (2 ^ Zpos w)%Z) in *.
    assert (Hh : (0 < h)%Z) by (apply Z.pow_pos_nonneg; lia).
    split.
    + intros H.
      pose proof (Z.div_mod (x - y + h) m ltac:(lia)) as Hdiv.
      assert (Hr : ((x - y + h) mod m = h)%Z) by lia.
      rewrite Hr in Hdiv.
      set (q := ((x - y + h) / m)%Z) in *.
      assert (Hq : (-1 < q < 1)%Z) by nia.
      nia.
    + intros ->; rewrite Z.sub_diag, Z.add_0_l, Z.mod_small by lia; lia.
Qed.

(** X3.  In the high-pass image of an image of integers, an element is
    zero exactly where the blurred image has the value of the image: the
    wrap-around of the subtraction sends no other difference to zero. *)
Theorem gaussian_high_pass_zero_iff_unchanged :
  forall (gf : gaussian_filter_t) (dt : dtype)
         (image low_pass high_passed_im : ndarray dt) (sigma : float64),
    gaussian_filter_contract gf ->
    is_integer dt = true ->
    well_formed image ->
    gf dt image sigma = Ok low_pass ->
    gaussian_high_pass gf image sigma = Ok high_passed_im ->
    forall i x y h,
      nth_error (data image) i = Some x ->
      nth_error (data low_pass) i = Some y ->
      nth_error (data high_passed_im) i = Some h ->
      (h = pix_zero dt <-> x = y).
Proof.
  intros gf dt image low_pass hp sigma Hc Hint Hwf Hgf Hhp i x y h Hx Hy Hh.
  destruct (Hc dt image low_pass sigma Hwf Hgf) as [Hs Hlp].
  rewrite (gaussian_high_pass_ok gf dt image low_pass sigma Hgf Hs) in Hhp.
  injection Hhp as <-; cbn [data] in Hh.
  rewrite (nth_error_zip_with _ _ _ _ _ _ _ _ _ Hx Hy) in Hh; injection Hh as <-.
  apply pix_sub_zero_iff;
    [exact Hint | apply (well_formed_nth dt image i x Hwf Hx)
     | apply (well_formed_nth dt low_pass i y Hlp Hy)].
Qed.

(** A 2x2 image of unsigned 16-bit integers with mean 70: the element
    that is 70 gives a zero, the element that is 10 does not. *)
Lemma gaussian_high_pass_zero_iff_unchanged_witness :
  let image := mk_ndarray (dt := UInt 16) [2; 2] [10; 70; 160; 40]%Z in
  let low_pass := mk_ndarray (dt := UInt 16) [2; 2] [70; 70; 70; 70]%Z in
  let high_passed_im := mk_ndarray (dt := UInt 16) [2; 2] [65476; 0; 90; 65506]%Z in
  gaussian_high_pass ref_gaussian_filter image (f64_of_Z 2) = Ok high_passed_im /\
  (0%Z = pix_zero (UInt 16) <-> 70%Z = 70%Z) /\
  (65476%Z = pix_zero (UInt 16) <-> 10%Z = 70%Z).
Proof.
  intros image low_pass high_passed_im.
  assert (Hwf : well_formed image)
    by (split; [reflexivity | repeat constructor; simpl; lia]).
  split; [reflexivity | split].
  - apply (gaussian_high_pass_zero_iff_unchanged ref_gaussian_filter (UInt 16)
             image low_pass high_passed_im (f64_of_Z 2)
             ref_gaussian_filter_contract eq_refl Hwf eq_refl eq_refl
             1 70%Z 70%Z 0%Z eq_refl eq_refl eq_refl).
  - apply (gaussian_high_pass_zero_iff_unchanged ref_gaussian_filter (UInt 16)
             image low_pass high_passed_im (f64_of_Z 2)
             ref_gaussian_filter_contract eq_refl Hwf eq_refl eq_refl
             0 10%Z 70%Z 65476%Z eq_refl eq_refl eq_refl).
Defined.

Lemma f64_sub_nan_r : forall x : float64, f64_sub x f64_nan = f64_nan.
Proof. intros x; destruct x; reflexivity. Qed.

(** X4.  In an image of floats a NaN does not go away: wherever the
    image or its blurred version holds a NaN, and wherever both hold the
    same infinity, the high-pass image holds a NaN. *)
Theorem gaussian_high_pass_nan_propagates :
  forall (gf : gaussian_filter_t) (image low_pass high_passed_im : ndarray Float64)
         (sigma : float64),
    gf Float64 image sigma = Ok low_pass ->
    gaussian_high_pass gf image sigma = Ok high_passed_im ->
    forall i x y,
      nth_error (data image) i = Some x ->
      nth_error (data low_pass) i = Some y ->
      x = f64_nan \/ y = f64_nan \/
      (exists s, x = S754_infinity s /\ y = S754_infinity s) ->
      nth_error (data high_passed_im) i = Some f64_nan.
Proof.
  intros gf image low_pass hp sigma Hgf Hhp i x y Hx Hy Hcase.
  unfold gaussian_high_pass in Hhp; rewrite Hgf in Hhp; cbn [bind] in Hhp.
  apply bind_ok in Hhp as (hp' & Hsub & Hhp); injection Hhp as <-.
  unfold nd_sub, elementwise in Hsub.
  destruct (list_eq_dec Nat.eq_dec (shape image) (shape low_pass));
    [| discriminate Hsub].
  injection Hsub as <-; cbn [data].
  rewrite (nth_error_zip_with _ _ _ _ _ _ _ _ _ Hx Hy); f_equal.
  destruct Hcase as [-> | [-> | (s & -> & ->)]].
  - apply f64_sub_nan_l.
  - apply f64_sub_nan_r.
  - destruct s; reflexivity.
Qed.

(** A row with a number, a NaN and an infinity; the filter returns the
    row as it is. *)
Lemma gaussian_high_pass_nan_propagates_witness :
  let image :=
    mk_ndarray (dt := Float64) [1; 3]
      [f64_of_Z 1; f64_nan; S754_infinity false] in
  let high_passed_im :=
    mk_ndarray (dt := Float64) [1; 3] [f64_zero; f64_nan; f64_nan] in
  gaussian_high_pass ref_gaussian_filter image (f64_of_Z 2) = Ok high_passed_im /\
  nth_error (data high_passed_im) 1 = Some f64_nan /\
  nth_error (data high_passed_im) 2 = Some f64_nan.
Proof.
  intros image high_passed_im.
  split; [reflexivity | split].
  - apply (gaussian_high_pass_nan_propagates ref_gaussian_filter image image
             high_passed_im (f64_of_Z 2) eq_refl eq_refl 1 f64_nan f64_nan
             eq_refl eq_refl).
    left; reflexivity.
  - apply (gaussian_high_pass_nan_propagates ref_gaussian_filter image image
             high_passed_im (f64_of_Z 2) eq_refl eq_refl 2
             (S754_infinity false) (S754_infinity false) eq_refl eq_refl).
    right; right; exists false; split; reflexivity.
Defined.

(** ** The spot detector on images of two axes and of one axis *)

(** X5.  On an image of two axes [detect_spots] does what its docstring
    says: the detector's rows are (row, column, scale), the coordinate
    array has as many columns as the image has axes and holds the
    complete coordinates, and the size is 3 times the scale. *)
Theorem detect_spots_two_axes :
  forall (gf : gaussian_filter_t) (bl : blob_log_t) (dt : dtype)
         (image : ndarray dt) (hs thr bs : float64)
         (points_coords : array2) (sizes : list float64),
    blob_log_contract bl ->
    ndim image = 2 ->
    detect_spots gf bl image hs thr bs = Ok (points_coords, sizes) ->
    ncols points_coords = ndim image /\
    exists filtered blobs,
      gaussian_high_pass gf image hs = Ok filtered /\
      bl dt filtered (mk_kwargs bs 1 thr) = Ok blobs /\
      nrows points_coords = nrows blobs /\
      length sizes = nrows blobs /\
      forall i r,
        nth_error (rows blobs) i = Some r ->
        exists y x scale,
          r = [y; x; scale] /\
          nth_error (rows points_coords) i = Some [y; x] /\
          nth_error sizes i = Some (f64_mul (f64_of_Z 3) scale).
Proof.
  intros gf bl dt image hs thr bs pc sizes Hbl HD H.
  apply detect_spots_inv in H as (filtered & blobs & Hf & Hb & Hc & -> & ->).
  destruct (Hbl dt filtered _ blobs Hb) as [Hwf Hcols].
  cbn [ncols rows]; split; [symmetry; exact HD |].
  exists filtered, blobs; unfold nrows; cbn [rows]; rewrite !length_map.
  repeat split; try assumption.
  intros i r Hi.
  assert (Hlen : length r = 3).
  { unfold array2_wf in Hwf; rewrite Forall_forall in Hwf.
    rewrite (Hwf r (nth_error_In _ _ Hi)).
    destruct Hcols as [Hn | [Hnil _]].
    - rewrite Hn; unfold ndim in *.
      rewrite (gaussian_high_pass_shape gf dt image filtered hs Hf), HD; reflexivity.
    - rewrite Hnil in Hi; destruct i; discriminate Hi. }
  destruct r as [| y [| x [| scale [| z r]]]]; simpl in Hlen; try lia.
  exists y, x, scale; split; [reflexivity |].
  rewrite !nth_error_map, Hi; split; reflexivity.
Qed.

Lemma detect_spots_two_axes_witness :
  let image := mk_ndarray (dt := SInt 16) [3; 3] [5; 60; 5; 5; 5; 50; 5; 5; 5]%Z in
  let points_coords :=
    mk_array2 2 [[f64_of_Z 0; f64_of_Z 1]; [f64_of_Z 1; f64_of_Z 2]] in
  let sizes := [f64_of_Z 6; f64_of_Z 6] in
  ncols points_coords = ndim image /\
  exists filtered blobs,
    gaussian_high_pass ref_gaussian_filter image (f64_of_Z 2) = Ok filtered /\
    ref_blob_log filtered (mk_kwargs (f64_of_Z 2) 1 (f64_of_Z 30)) = Ok blobs /\
    nrows points_coords = nrows blobs /\
    length sizes = nrows blobs /\
    forall i r,
      nth_error (rows blobs) i = Some r ->
      exists y x scale,
        r = [y; x; scale] /\
        nth_error (rows points_coords) i = Some [y; x] /\
        nth_error sizes i = Some (f64_mul (f64_of_Z 3) scale).
Proof.
  intros image points_coords sizes.
  apply (detect_spots_two_axes ref_gaussian_filter ref_blob_log (SInt 16) image
           (f64_of_Z 2) (f64_of_Z 30) (f64_of_Z 2)).
  - exact ref_blob_log_contract.
  - reflexivity.
  - reflexivity.
Defined.

(** X6.  On an array of one axis, when the filter and the detector both
    return: if the detector found a blob, its rows are one coordinate and
    the scale, and [blobs_log[:, 2]] is refused with IndexError; if it
    found none, [detect_spots] raises IndexError as well when the empty
    array has two columns, and returns two empty arrays when the empty
    array has three. *)
Theorem detect_spots_one_axis :
  forall (gf : gaussian_filter_t) (bl : blob_log_t) (dt : dtype)
         (image filtered : ndarray dt) (hs thr bs : float64) (blobs : array2),
    blob_log_contract bl ->
    ndim image = 1 ->
    gaussian_high_pass gf image hs = Ok filtered ->
    bl dt filtered (mk_kwargs bs 1 thr) = Ok blobs ->
    (rows blobs <> [] ->
     ncols blobs = 2 /\
     detect_spots gf bl image hs thr bs = Raise IndexError) /\
    (rows blobs = [] ->
     (ncols blobs = 2 /\
      detect_spots gf bl image hs thr bs = Raise IndexError) \/
     (ncols blobs = 3 /\
      detect_spots gf bl image hs thr bs = Ok (mk_array2 2 [], []))).
Proof.
  intros gf bl dt image filtered hs thr bs blobs Hbl HD Hf Hb.
  destruct (Hbl dt filtered _ blobs Hb) as [_ Hcols].
  assert (Hdim : ndim filtered + 1 = 2).
  { unfold ndim in *.
    rewrite (gaussian_high_pass_shape gf dt image filtered hs Hf), HD; reflexivity. }
  rewrite Hdim in Hcols.
  assert (Hshort : ncols blobs = 2 ->
                   ncols blobs = 2 /\
                   detect_spots gf bl image hs thr bs = Raise IndexError).
  { intros H2; split; [exact H2 |].
    apply (detect_spots_index_error gf bl dt image filtered hs thr bs blobs Hf Hb).
    lia. }
  split.
  - intros Hrows; apply Hshort.
    destruct Hcols as [H2 | [Hnil _]]; [exact H2 | contradiction].
  - intros Hnil.
    destruct Hcols as [H2 | [_ H3]]; [left; apply Hshort; exact H2 | right].
    split; [exact H3 |].
    rewrite (detect_spots_ok gf bl dt image filtered hs thr bs blobs Hf Hb
               ltac:(lia)), Hnil.
    reflexivity.
Qed.

(** Four elements in a row, one of them a blob; and four equal elements,
    where the detector returns an empty array of two columns. *)
Lemma detect_spots_one_axis_witness :
  detect_spots ref_gaussian_filter ref_blob_log
    (mk_ndarray (dt := SInt 16) [4] [5; 60; 5; 6]%Z)
    (f64_of_Z 2) (f64_of_Z 30) (f64_of_Z 2)
  = Raise IndexError /\
  detect_spots ref_gaussian_filter ref_blob_log
    (mk_ndarray (dt := SInt 16) [4] [5; 5; 5; 5]%Z)
    (f64_of_Z 2) (f64_of_Z 30) (f64_of_Z 2)
  = Raise IndexError.
Proof.
  split.
  - apply (proj1 (detect_spots_one_axis ref_gaussian_filter ref_blob_log (SInt 16)
                    (mk_ndarray (dt := SInt 16) [4] [5; 60; 5; 6]%Z)
                    (mk_ndarray (dt := SInt 16) [4] [-14; 41; -14; -13]%Z)
                    (f64_of_Z 2) (f64_of_Z 30) (f64_of_Z 2)
                    (mk_array2 2 [[f64_of_Z 1; f64_of_Z 2]])
                    ref_blob_log_contract eq_refl eq_refl eq_refl)).
    discriminate.
  - destruct (proj2 (detect_spots_one_axis ref_gaussian_filter ref_blob_log (SInt 16)
                       (mk_ndarray (dt := SInt 16) [4] [5; 5; 5; 5]%Z)
                       (mk_ndarray (dt := SInt 16) [4] [0; 0; 0; 0]%Z)
                       (f64_of_Z 2) (f64_of_Z 30) (f64_of_Z 2)
                       (mk_array2 2 [])
                       ref_blob_log_contract eq_refl eq_refl eq_refl) eq_refl)
      as [[_ H] | [H _]]; [exact H | discriminate H].
Defined.

(** ** Reading the labels *)

(** X8.  The labels are read with numpy's rules for an array of integer
    indices: with every index in [-M, M) one label is returned per
    index; with one index outside, the lookup raises IndexError.  This is
    what happens to the index M that [query] reports for a point without
    neighbour. *)
Theorem take_bounds :
  forall (nucleus_label_values : list Z) (ind : list Z),
    (Forall (fun i => - Z.of_nat (length nucleus_label_values) <= i
                      < Z.of_nat (length nucleus_label_values))%Z ind ->
     exists out, take nucleus_label_values ind = Ok out /\
                 length out = length ind) /\
    (Exists (fun i => i < - Z.of_nat (length nucleus_label_values) \/
                      Z.of_nat (length nucleus_label_values) <= i)%Z ind ->
     take nucleus_label_values ind = Raise IndexError).
Proof.
  intros labels ind.
  assert (Hin : forall i,
             (- Z.of_nat (length labels) <= i < Z.of_nat (length labels))%Z ->
             returns (getitem labels i)).
  { intros i Hi; unfold getitem.
    destruct (Z.ltb_spec i 0).
    - destruct (Z.leb_spec 0 (i + Z.of_nat (length labels))); [| lia].
      destruct (Z.ltb_spec (i + Z.of_nat (length labels)) (Z.of_nat (length labels)));
        [| lia].
      cbn [andb].
      destruct (nth_error labels (Z.to_nat (i + Z.of_nat (length labels)))) eqn:E.
      + eexists; reflexivity.
      + apply nth_error_None in E; lia.
    - destruct (Z.leb_spec 0 i); [| lia].
      destruct (Z.ltb_spec i (Z.of_nat (length labels))); [| lia].
      cbn [andb].
      destruct (nth_error labels (Z.to_nat i)) eqn:E.
      + eexists; reflexivity.
      + apply nth_error_None in E; lia. }
  assert (Hout : forall i,
             (i < - Z.of_nat (length labels) \/ Z.of_nat (length labels) <= i)%Z ->
             getitem labels i = Raise IndexError).
  { intros i Hi; unfold getitem.
    destruct (Z.ltb_spec i 0).
    - destruct (Z.leb_spec 0 (i + Z.of_nat (length labels))); [lia | reflexivity].
    - destruct (Z.ltb_spec i (Z.of_nat (length labels))); [lia |].
      rewrite andb_false_r; reflexivity. }
  assert (Hwhich : forall i : Z,
             (- Z.of_nat (length labels) <= i < Z.of_nat (length labels))%Z \/
             (i < - Z.of_nat (length labels) \/ Z.of_nat (length labels) <= i)%Z)
    by (intros i; lia).
  split.
  - intros Hall.
    destruct (mapM_total _ _ (getitem labels) ind) as [out Hok].
    + intros i Hi; rewrite Forall_forall in Hall; apply Hin, Hall, Hi.
    + exists out; split; [exact Hok | apply (mapM_length _ _ _ _ _ Hok)].
  - intros Hex; unfold take.
    induction ind as [| i ind IH]; [inversion Hex |].
    cbn [mapM].
    destruct (Hwhich i) as [Hi | Hi].
    + destruct (Hin i Hi) as [l Hl]; rewrite Hl; cbn [bind].
      inversion Hex as [? ? Hbad | ? ? Hlater]; subst; [lia |].
      rewrite (IH Hlater); reflexivity.
    + rewrite (Hout i Hi); reflexivity.
Qed.

Lemma take_bounds_witness :
  (exists out, take [1; 3]%Z [0; 1; -1; 0]%Z = Ok out /\ length out = 4) /\
  take [1; 3]%Z [0; 2; 1]%Z = Raise IndexError.
Proof.
  split.
  - apply (proj1 (take_bounds [1; 3]%Z [0; 1; -1; 0]%Z)).
    repeat constructor; simpl; lia.
  - apply (proj2 (take_bounds [1; 3]%Z [0; 2; 1]%Z)).
    apply Exists_cons_tl, Exists_cons_hd; simpl; lia.
Defined.

(** ** The assignment when every spot has one nearest nucleus *)

Lemma no_tie_reachable : forall (nuclei_centroids : list point) (s : point),
  no_tie nuclei_centroids s -> reachable nuclei_centroids s.
Proof.
  intros cents s (j & c & Hc & Hfin & _).
  exists c; split; [eapply nth_error_In; exact Hc | exact Hfin].
Qed.

Lemma no_tie_all_reachable : forall (nuclei_centroids spot_coords : list point),
  Forall (no_tie nuclei_centroids) spot_coords ->
  Forall (reachable nuclei_centroids) spot_coords.
Proof.
  intros cents spots H; eapply Forall_impl; [| exact H].
  intros s; apply no_tie_reachable.
Qed.

Lemma nearest_nucleus_label_no_tie :
  forall (kdtree : Type) (cKDTree : list point -> result kdtree)
         (query : kdtree -> list point -> result (list Z))
         (labels : list Z) (cents spots : list point),
    kdtree_contract cKDTree query ->
    cents <> [] ->
    Forall finite_point cents ->
    Forall finite_point spots ->
    length labels = length cents ->
    Forall (no_tie cents) spots ->
    exists out,
      nearest_nucleus_label cKDTree query labels cents spots = Ok out /\
      length out = length spots /\
      forall i s j c,
        nth_error spots i = Some s ->
        nth_error cents j = Some c ->
        f64_ltb (sqdist s c) f64_inf = true ->
        (forall k c', k <> j -> nth_error cents k = Some c' ->
                      f64_ltb (sqdist s c) (sqdist s c') = true) ->
        nth_error out i = nth_error labels j.
Proof.
  intros kdtree cKDTree query labels cents spots Hlib Hne Hfc Hfs Hlen Hties.
  destruct (nearest_nucleus_label_spec kdtree cKDTree query Hlib labels cents spots
              Hne Hfc Hfs Hlen (no_tie_all_reachable cents spots Hties))
    as (ind & out & _ & Hout & _).
  exists out; split; [exact Hout |].
  apply (nearest_nucleus_label_unique kdtree cKDTree query Hlib labels cents spots
           Hne Hfc Hfs Hlen out Hout).
Qed.

(** The two spots of the example have one nearest centroid each. *)
Lemma no_tie_example :
  Forall (no_tie [(f64_of_Z 0, f64_of_Z 0); (f64_of_Z 100, f64_of_Z 100)])
    [(f64_of_Z 1, f64_of_Z 1); (f64_of_Z 99, f64_of_Z 99)].
Proof.
  repeat constructor.
  - exists 0, (f64_of_Z 0, f64_of_Z 0); split; [reflexivity | split; [reflexivity |]].
    intros [| [| k]] c' Hk Hc'; cbn [nth_error] in Hc'; try congruence.
    + injection Hc' as <-; reflexivity.
    + destruct k; discriminate Hc'.
  - exists 1, (f64_of_Z 100, f64_of_Z 100);
      split; [reflexivity | split; [reflexivity |]].
    intros [| [| k]] c' Hk Hc'; cbn [nth_error] in Hc'; try congruence.
    + injection Hc' as <-; reflexivity.
    + destruct k; discriminate Hc'.
Qed.

(** X9.  With a single nucleus every spot is given its label, provided
    that the squared distance of every spot to the centroid, computed in
    binary64, is finite; a spot so far away that its squared distance
    overflows makes the whole assignment raise IndexError. *)
Theorem single_nucleus_takes_all :
  forall (kdtree : Type) (cKDTree : list point -> result kdtree)
         (query : kdtree -> list point -> result (list Z))
         (l : Z) (c : point) (spot_coords : list point),
    kdtree_contract cKDTree query ->
    finite_point c ->
    Forall finite_point spot_coords ->
    (Forall (fun s => f64_ltb (sqdist s c) f64_inf = true) spot_coords ->
     nearest_nucleus_label cKDTree query [l] [c] spot_coords
     = Ok (repeat l (length spot_coords))) /\
    (Exists (fun s => f64_ltb (sqdist s c) f64_inf = false) spot_coords ->
     nearest_nucleus_label cKDTree query [l] [c] spot_coords = Raise IndexError).
Proof.
  intros kdtree cKDTree query l c spots Hlib Hfc Hfs.
  assert (Hne : [c] <> []) by discriminate.
  assert (Hfcs : Forall finite_point [c]) by (constructor; [exact Hfc | constructor]).
  split.
  - intros Hfin.
    assert (Hreach : Forall (reachable [c]) spots).
    { eapply Forall_impl; [| exact Hfin].
      intros s Hs; exists c; split; [left; reflexivity | exact Hs]. }
    destruct (nearest_nucleus_label_spec kdtree cKDTree query Hlib [l] [c] spots
                Hne Hfcs Hfs eq_refl Hreach)
      as (ind & out & _ & Hout & _ & Hlen & Hspec).
    rewrite Hout; f_equal.
    apply nth_error_ext; intros i.
    destruct (nth_error spots i) as [s |] eqn:Hs.
    + assert (Hi : i < length spots) by (apply nth_error_Some; congruence).
      rewrite (nth_error_repeat l Hi).
      destruct (Hspec i s Hs) as (j & c0 & l0 & _ & _ & _ & Hl & Hi0 & _).
      rewrite Hi0; f_equal.
      destruct (Z.to_nat j) as [| k]; [injection Hl as <-; reflexivity |].
      destruct k; discriminate Hl.
    + apply nth_error_None in Hs.
      transitivity (@None Z); [| symmetry];
        apply nth_error_None; [lia | rewrite repeat_length; lia].
  - intros Hfar.
    apply (nearest_nucleus_label_out_of_reach kdtree cKDTree query Hlib [l] [c] spots
             Hne Hfcs Hfs eq_refl).
    apply Exists_exists in Hfar as (s & Hin & Hs).
    apply Exists_exists; exists s; split; [exact Hin |].
    intros (c' & [<- | []] & Hfin); rewrite Hs in Hfin; discriminate Hfin.
Qed.

(** One nucleus at (3, 4) and three spots; then one nucleus at
    (2^600, 0) and the spot (0, 0). *)
Lemma single_nucleus_takes_all_witness :
  nearest_nucleus_label ref_cKDTree ref_query [5%Z] [(f64_of_Z 3, f64_of_Z 4)]
    [(f64_of_Z 0, f64_of_Z 0); (f64_of_Z 1000, f64_of_Z (-7));
     (f64_of_Z 3, f64_of_Z 4)]
  = Ok [5; 5; 5]%Z /\
  nearest_nucleus_label ref_cKDTree ref_query [5%Z]
    [(f64_of_Z (2 ^ 600), f64_of_Z 0)] [(f64_of_Z 0, f64_of_Z 0)]
  = Raise IndexError.
Proof.
  split.
  - apply (proj1 (single_nucleus_takes_all ref_kdtree ref_cKDTree ref_query 5%Z
                    (f64_of_Z 3, f64_of_Z 4)
                    [(f64_of_Z 0, f64_of_Z 0); (f64_of_Z 1000, f64_of_Z (-7));
                     (f64_of_Z 3, f64_of_Z 4)]
                    ref_kdtree_contract
                    ltac:(repeat constructor) ltac:(repeat constructor))).
    repeat constructor.
  - apply (proj2 (single_nucleus_takes_all ref_kdtree ref_cKDTree ref_query 5%Z
                    (f64_of_Z (2 ^ 600), f64_of_Z 0)
                    [(f64_of_Z 0, f64_of_Z 0)]
                    ref_kdtree_contract
                    ltac:(repeat constructor) ltac:(repeat constructor))).
    apply Exists_cons_hd; reflexivity.
Defined.

(** X10.  The labels do not depend on how the nearest-neighbour search
    breaks ties: when every spot has one nearest centroid in the computed
    squared distances, two searches that both return a row of minimal
    computed squared distance give the same labels. *)
Theorem assignment_independent_of_library :
  forall (kdtree kdtree' : Type)
         (cKDTree : list point -> result kdtree)
         (query : kdtree -> list point -> result (list Z))
         (cKDTree' : list point -> result kdtree')
         (query' : kdtree' -> list point -> result (list Z))
         (nucleus_label_values : list Z) (nuclei_centroids spot_coords : list point),
    kdtree_contract cKDTree query ->
    kdtree_contract cKDTree' query' ->
    nuclei_centroids <> [] ->
    Forall finite_point nuclei_centroids ->
    Forall finite_point spot_coords ->
    length nucleus_label_values = length nuclei_centroids ->
    Forall (no_tie nuclei_centroids) spot_coords ->
    exists out,
      nearest_nucleus_label cKDTree query nucleus_label_values nuclei_centroids
        spot_coords = Ok out /\
      nearest_nucleus_label cKDTree' query' nucleus_label_values nuclei_centroids
        spot_coords = Ok out.
Proof.
  intros kdtree kdtree' cKDTree query cKDTree' query' labels cents spots
    Hlib Hlib' Hne Hfc Hfs Hlen Hties.
  destruct (nearest_nucleus_label_no_tie kdtree cKDTree query labels cents spots
              Hlib Hne Hfc Hfs Hlen Hties) as (out & Hout & Hl & Hu).
  destruct (nearest_nucleus_label_no_tie kdtree' cKDTree' query' labels cents spots
              Hlib' Hne Hfc Hfs Hlen Hties) as (out' & Hout' & Hl' & Hu').
  exists out; split; [exact Hout |].
  rewrite Hout'; f_equal.
  apply nth_error_ext; intros i.
  destruct (nth_error spots i) as [s |] eqn:Hs.
  - rewrite Forall_forall in Hties.
    destruct (Hties s (nth_error_In _ _ Hs)) as (j & c & Hc & Hfin & Hcloser).
    rewrite (Hu i s j c Hs Hc Hfin Hcloser), (Hu' i s j c Hs Hc Hfin Hcloser).
    reflexivity.
  - apply nth_error_None in Hs.
    transitivity (@None Z); [| symmetry]; apply nth_error_None; lia.
Qed.

(** The scan that keeps the first of the rows at the least distance, and
    the scan that keeps the last of them. *)
Lemma assignment_independent_of_library_witness :
  let labels := [1; 2]%Z in
  let centroids := [(f64_of_Z 0, f64_of_Z 0); (f64_of_Z 100, f64_of_Z 100)] in
  let spots := [(f64_of_Z 1, f64_of_Z 1); (f64_of_Z 99, f64_of_Z 99)] in
  exists out,
    nearest_nucleus_label ref_cKDTree (ref_query_with false) labels centroids spots
    = Ok out /\
    nearest_nucleus_label ref_cKDTree (ref_query_with true) labels centroids spots
    = Ok out.
Proof.
  intros labels centroids spots.
  apply (assignment_independent_of_library ref_kdtree ref_kdtree
           ref_cKDTree (ref_query_with false) ref_cKDTree (ref_query_with true)
           labels centroids spots
           (ref_query_with_contract false) (ref_query_with_contract true)).
  - discriminate.
  - repeat constructor.
  - repeat constructor.
  - reflexivity.
  - exact no_tie_example.
Defined.

(** Where the computed squared distances tie, the two scans disagree:
    the hypothesis that every spot has one nearest centroid is needed. *)
Example tie_breaking_differs :
  let labels := [1; 2]%Z in
  let centroids := [(f64_of_Z (2 ^ 53), f64_of_Z 1); (f64_of_Z (2 ^ 53), f64_of_Z 0)] in
  let spots := [(f64_of_Z 0, f64_of_Z 0)] in
  nearest_nucleus_label ref_cKDTree (ref_query_with false) labels centroids spots
  = Ok [1%Z] /\
  nearest_nucleus_label ref_cKDTree (ref_query_with true) labels centroids spots
  = Ok [2%Z].
Proof. vm_compute; split; reflexivity. Qed.

(** X11.  Without spots the assignment needs no nucleus: when the tree
    is built and the query of no point returns no index, the lookup of
    the labels returns an empty array, whatever the label array holds,
    also if it is empty; and what [cKDTree] raises is raised. *)
Theorem no_spot_no_label :
  forall (kdtree : Type) (cKDTree : list point -> result kdtree)
         (query : kdtree -> list point -> result (list Z))
         (nucleus_label_values : list Z) (nuclei_centroids : list point),
    (forall kdt, cKDTree nuclei_centroids = Ok kdt -> query kdt [] = Ok []) ->
    match cKDTree nuclei_centroids with
    | Ok _ =>
        nearest_nucleus_label cKDTree query nucleus_label_values nuclei_centroids []
        = Ok []
    | Raise e =>
        nearest_nucleus_label cKDTree query nucleus_label_values nuclei_centroids []
        = Raise e
    end.
Proof.
  intros kdtree cKDTree query labels cents Hempty.
  unfold nearest_nucleus_label, nearest_nucleus_ind.
  destruct (cKDTree cents) as [kdt | e]; [| reflexivity].
  cbn [bind]; rewrite (Hempty kdt eq_refl); reflexivity.
Qed.

Lemma no_spot_no_label_witness :
  nearest_nucleus_label ref_cKDTree ref_query [1; 2]%Z
    [(f64_of_Z 0, f64_of_Z 0); (f64_of_Z 100, f64_of_Z 100)] []
  = Ok [].
Proof.
  apply (no_spot_no_label ref_kdtree ref_cKDTree ref_query [1; 2]%Z
           [(f64_of_Z 0, f64_of_Z 0); (f64_of_Z 100, f64_of_Z 100)]).
  intros kdt _; reflexivity.
Defined.

(** X12.  Spots are assigned one by one: when every spot has one
    nearest centroid in the computed squared distances, the labels of
    two arrays of spots queried together are the labels of the first
    followed by the labels of the second. *)
Theorem assignment_of_concatenation :
  forall (kdtree : Type) (cKDTree : list point -> result kdtree)
         (query : kdtree -> list point -> result (list Z))
         (nucleus_label_values : list Z)
         (nuclei_centroids spots1 spots2 : list point),
    kdtree_contract cKDTree query ->
    nuclei_centroids <> [] ->
    Forall finite_point nuclei_centroids ->
    Forall finite_point (spots1 ++ spots2) ->
    length nucleus_label_values = length nuclei_centroids ->
    Forall (no_tie nuclei_centroids) (spots1 ++ spots2) ->
    exists out1 out2,
      nearest_nucleus_label cKDTree query nucleus_label_values nuclei_centroids
        spots1 = Ok out1 /\
      nearest_nucleus_label cKDTree query nucleus_label_values nuclei_centroids
        spots2 = Ok out2 /\
      nearest_nucleus_label cKDTree query nucleus_label_values nuclei_centroids
        (spots1 ++ spots2) = Ok (out1 ++ out2).
Proof.
  intros kdtree cKDTree query labels cents spots1 spots2 Hlib Hne Hfc Hfs Hlen Hties.
  pose proof (proj1 (Forall_app _ _ _) Hfs) as [Hfs1 Hfs2].
  pose proof (proj1 (Forall_app _ _ _) Hties) as [Hties1 Hties2].
  destruct (nearest_nucleus_label_no_tie kdtree cKDTree query labels cents spots1
              Hlib Hne Hfc Hfs1 Hlen Hties1) as (out1 & Hout1 & Hl1 & Hu1).
  destruct (nearest_nucleus_label_no_tie kdtree cKDTree query labels cents spots2
              Hlib Hne Hfc Hfs2 Hlen Hties2) as (out2 & Hout2 & Hl2 & Hu2).
  destruct (nearest_nucleus_label_no_tie kdtree cKDTree query labels cents
              (spots1 ++ spots2) Hlib Hne Hfc Hfs Hlen Hties) as (out & Hout & Hl & Hu).
  exists out1, out2; split; [exact Hout1 | split; [exact Hout2 |]].
  rewrite Hout; f_equal.
  apply nth_error_ext; intros i.
  rewrite length_app in Hl.
  destruct (nth_error (spots1 ++ spots2) i) as [s |] eqn:Hs.
  - rewrite Forall_forall in Hties.
    destruct (Hties s (nth_error_In _ _ Hs)) as (j & c & Hc & Hfin & Hcloser).
    rewrite (Hu i s j c Hs Hc Hfin Hcloser).
    destruct (Nat.lt_ge_cases i (length spots1)) as [Hi | Hi].
    + rewrite nth_error_app1 in Hs by exact Hi.
      rewrite nth_error_app1 by lia.
      symmetry; apply (Hu1 i s j c Hs Hc Hfin Hcloser).
    + rewrite nth_error_app2 in Hs by exact Hi.
      rewrite nth_error_app2 by lia.
      rewrite Hl1; symmetry; apply (Hu2 _ s j c Hs Hc Hfin Hcloser).
  - apply nth_error_None in Hs; rewrite length_app in Hs.
    transitivity (@None Z); [| symmetry]; apply nth_error_None;
      [lia | rewrite length_app; lia].
Qed.

Lemma assignment_of_concatenation_witness :
  let labels := [1; 2]%Z in
  let centroids := [(f64_of_Z 0, f64_of_Z 0); (f64_of_Z 100, f64_of_Z 100)] in
  exists out1 out2,
    nearest_nucleus_label ref_cKDTree ref_query labels centroids
      [(f64_of_Z 1, f64_of_Z 1)] = Ok out1 /\
    nearest_nucleus_label ref_cKDTree ref_query labels centroids
      [(f64_of_Z 99, f64_of_Z 99)] = Ok out2 /\
    nearest_nucleus_label ref_cKDTree ref_query labels centroids
      ([(f64_of_Z 1, f64_of_Z 1)] ++ [(f64_of_Z 99, f64_of_Z 99)])
    = Ok (out1 ++ out2).
Proof.
  intros labels centroids.
  apply (assignment_of_concatenation ref_kdtree ref_cKDTree ref_query labels centroids
           [(f64_of_Z 1, f64_of_Z 1)] [(f64_of_Z 99, f64_of_Z 99)]
           ref_kdtree_contract).
  - discriminate.
  - repeat constructor.
  - repeat constructor.
  - reflexivity.
  - exact no_tie_example.
Defined.

(** ** The colours *)

(** X15.  The ten entries of [color_cycle] are colours: every channel
    is between 0 and 1, and every colour is opaque. *)
Theorem color_cycle_valid :
  length color_cycle = 10 /\
  Forall (fun c =>
            (0 <= red c <= 1)%Q /\ (0 <= green c <= 1)%Q /\
            (0 <= blue c <= 1)%Q /\ (alpha c == 1)%Q)
         color_cycle.
Proof.
  split; [reflexivity |].
  unfold color_cycle.
  repeat (apply Forall_cons;
          [unfold Qle, Qeq; cbn; repeat split; lia |]).
  apply Forall_nil.
Qed.
